(** * BtMeshGenerator: the DCD data model, merge engine and validator

    A shallow embedding of [app/btmesh/script/generator/BtMeshGenerator.py]:
    the entity classes ([SIGModel], [VendorModel], [Source], [Element],
    [DCD]), the identifier derivation [to_c_macro], the chunk fold
    [DCD.add_chunk], the validator [DCD.validate] and the vendor model
    aggregator [DCD.collect_v_models].

    Conventions.
    - A Python [int] is a [Z]; [len] of a list is a [nat].
    - A Python [str] is a list of Unicode code points ([str]); [py "..."]
      writes an ASCII literal.
    - A function that can raise returns a [result]; a function that prints
      returns the printed text next to its value.
    - [Element] objects are mutable and shared between the chunk lists and
      [DCD.elements]: they live in a store ([heap]) and lists hold
      references.  [SIGModel], [VendorModel] and [Source] objects are never
      mutated after construction and are kept by value. *)

From Stdlib Require Import ZArith String Ascii HexadecimalString.
From stdpp Require Import gmap list.

(** ** Strings, exceptions, printed output *)

Definition char := N.
Definition str := list char.

Definition py (s : string) : str := N_of_ascii <$> list_ascii_of_string s.

(** ["sep".join(l)] *)
Fixpoint join (sep : str) (l : list str) : str :=
  match l with
  | [] => []
  | [s] => s
  | s :: rest => s ++ sep ++ join sep rest
  end.

Definition nl : str := [10%N].

(** Text written by [print(text)]; [print(text, end="")] writes [text]. *)
Definition print (text : str) : str := text ++ nl.

(** [hex(n)]: sign, then [0x], then lower-case digits. *)
Definition hex (n : Z) : str :=
  (if (n <? 0)%Z then py "-" else []) ++ py "0x" ++
  py (NilZero.string_of_uint (N.to_hex_uint (Z.abs_N n))).

Inductive exn :=
  | ValueError
  | IndexError
  | SystemExit (status : Z).

Inductive result (A : Type) :=
  | Ok (a : A)
  | Raise (e : exn).
Arguments Ok {A} a.
Arguments Raise {A} e.

#[global] Instance result_ret : MRet result := @Ok.
#[global] Instance result_bind : MBind result := λ A B f m,
  match m with
  | Ok a => f a
  | Raise e => Raise e
  end.

#[global] Instance exn_eq_dec : EqDecision exn.
Proof. solve_decision. Defined.
#[global] Instance result_eq_dec `{EqDecision A} : EqDecision (result A).
Proof. solve_decision. Defined.

(** [a << n] on Python integers: a negative shift count raises.  Integers
    are unbounded here; the exhaustion of memory by a huge count is not
    modelled. *)
Definition lshift (a n : Z) : result Z :=
  if (n <? 0)%Z then Raise ValueError else Ok (Z.shiftl a n).

(** ** The builtins the generator calls

    The Unicode tables behind [str.isdigit], [str.upper] and the regular
    expression class [\W], and the literal grammar of [int(x, 0)], belong
    to the Python runtime, not to the generator.  They are taken as an
    interface; the laws are the facts about them that the generator relies
    on: on ASCII they are the usual ASCII classes, and every character
    that [isdigit] accepts is alphanumeric. *)

Definition ascii_isdigit (c : char) : bool := (48 <=? c)%N && (c <=? 57)%N.
Definition ascii_isupper (c : char) : bool := (65 <=? c)%N && (c <=? 90)%N.
Definition ascii_islower (c : char) : bool := (97 <=? c)%N && (c <=? 122)%N.
Definition ascii_isalnum (c : char) : bool :=
  ascii_isdigit c || ascii_isupper c || ascii_islower c.
Definition ascii_upper (c : char) : char :=
  if ascii_islower c then (c - 32)%N else c.

Class Builtins := {
  (** [c.isalnum()]: letter, digit or other numeric character *)
  isalnum : char → bool;
  (** [c.isdigit()] *)
  isdigit : char → bool;
  (** [c.upper()]: may be longer than one character *)
  upper : char → str;
  (** [int(x, 0)]: [ValueError] on a malformed literal *)
  int0 : str → result Z;
  isalnum_ascii c : (c < 128)%N → isalnum c = ascii_isalnum c;
  isdigit_ascii c : (c < 128)%N → isdigit c = ascii_isdigit c;
  upper_ascii c : (c < 128)%N → upper c = [ascii_upper c];
  isdigit_isalnum c : isdigit c = true → isalnum c = true;
}.

(** ** Identifier derivation *)

Section to_c_macro.
Context `{Builtins}.

Definition underscore : char := 95%N.

(** The class [\w] of [re] on [str] patterns. *)
Definition is_word (c : char) : bool :=
  isalnum c || bool_decide (c = underscore).

(** [re.sub("\W", repl, s)]: every match is one character. *)
Definition re_sub_W (repl : str) (s : str) : str :=
  s ≫= λ c, if is_word c then [c] else repl.

(** [s[0]] *)
Definition getitem0 (s : str) : result char :=
  match s with
  | [] => Raise IndexError
  | c :: _ => Ok c
  end.

(** [s.upper()] *)
Definition str_upper (s : str) : str := s ≫= upper.

Definition to_c_macro (name : str) : result str :=
  let macro := re_sub_W (py "_") name in
  c ← getitem0 macro;
  let macro := macro ++ (if isdigit c then py "_" else py "") in
  Ok (str_upper macro).
End to_c_macro.

(** ** Entity model *)

Module SIGModel.
Record t := mk { mid : Z; name : str }.

(** The raw record [{mid, name}] of a fragment file. *)
Record record := mk_record { r_mid : str; r_name : str }.

Definition __init__ `{Builtins} (mid name : str) : result t :=
  m ← int0 mid;
  Ok (mk m name).

(** The constructor applied to the keys of a raw record. *)
Definition of_record `{Builtins} (m : record) : result t :=
  __init__ (r_mid m) (r_name m).
End SIGModel.

Module VendorModel.
Record t := mk { mid : Z; cid : Z; name : str }.

Record record := mk_record { r_mid : str; r_cid : str; r_name : str }.

Definition __init__ `{Builtins} (mid cid name : str) : result t :=
  m ← int0 mid;
  c ← int0 cid;
  Ok (mk m c name).

(** The constructor applied to the keys of a raw record. *)
Definition of_record `{Builtins} (m : record) : result t :=
  __init__ (r_mid m) (r_cid m) (r_name m).

(** [self.mid << 16 + self.cid]: [+] binds tighter than [<<], so the
    shift count is [16 + self.cid]. *)
Definition vmid (self : t) : result Z :=
  lshift (mid self) (16 + cid self).

Definition macro_name `{Builtins} (self : t) : result str :=
  to_c_macro (name self).
End VendorModel.

Module Source.
Record t := mk { filename : str; group : option str }.

Definition __eq__ (self other : t) : bool :=
  bool_decide ((filename self, group self) = (filename other, group other)).

(** [source in sources] *)
Definition contains (sources : list t) (source : t) : bool :=
  existsb (λ s, __eq__ s source) sources.
End Source.

(** The keys of [dict.fromkeys(keys)]: each key once, in the order of
    its first occurrence. *)
Definition fromkeys `{EqDecision K} (keys : list K) : list K :=
  foldl (λ d k, if decide (k ∈ d) then d else d ++ [k]) [] keys.

(** An [Element] object is named by a reference into the store. *)
Abbreviation ref := nat.

Module Element.
Record t := mk {
  name : str;
  location : Z;
  sig_models : list SIGModel.t;
  vendor_models : list VendorModel.t;
  sources : list Source.t;
}.

#[global] Instance inhabited : Inhabited t := populate (mk [] 0 [] [] []).

(** The raw record of one element entry of a fragment file. *)
Record record := mk_record {
  r_name : str;
  r_location : str;
  r_group : option str;
  r_sig_models : list SIGModel.record;
  r_vendor_models : list VendorModel.record;
}.

Definition duplicated_name_text (self_name : str) (m : VendorModel.t) : str :=
  (nl ++ py "BtMeshGenerator: In element: '" ++ self_name ++ py "' ") ++
  print (py "duplicated vendor model name: '" ++ VendorModel.name m ++
         py "' " ++ nl).

Definition duplicated_mid_text (self_name : str) (m : VendorModel.t) : str :=
  (nl ++ py "BtMeshGenerator: In element: '" ++ self_name ++ py "' ") ++
  print (py "duplicated vendor model ID (mid): " ++ hex (VendorModel.mid m) ++
         nl).

(** The [while] loop of [check_vendor_models]: [n] runs over the models
    after [m].  [Some text] is the text printed just before the method
    returns; [None] means the loop ran to its end. *)
Fixpoint check_against (self_name : str) (m : VendorModel.t)
    (rest : list VendorModel.t) : option str :=
  match rest with
  | [] => None
  | n :: rest =>
      if bool_decide (VendorModel.name m = VendorModel.name n)
      then Some (duplicated_name_text self_name m)
      else if bool_decide (VendorModel.mid m = VendorModel.mid n)
      then Some (duplicated_mid_text self_name m)
      else check_against self_name m rest
  end.

(** The [for m in vend_mod] loop.  The objects of [vend_mod] are distinct
    and [VendorModel] defines no [__eq__], so [vend_mod.index(m)] is the
    position of [m] and the inner loop starts right after it. *)
Fixpoint check_each (self_name : str) (vend_mod : list VendorModel.t) : str :=
  match vend_mod with
  | [] => []
  | m :: rest =>
      match check_against self_name m rest with
      | Some text => text
      | None => check_each self_name rest
      end
  end.

(** Returns the printed text and the list that the method returns. *)
Definition check_vendor_models `{Builtins} (self_name : str)
    (vendor_models : list VendorModel.record)
    : result (str * list VendorModel.t) :=
  vend_mod ← mapM VendorModel.of_record vendor_models;
  Ok (check_each self_name vend_mod, vend_mod).

(** Returns the printed text and the state of the new object. *)
Definition __init__ `{Builtins} (name location : str) (group : option str)
    (sig_models : list SIGModel.record)
    (vendor_models : list VendorModel.record)
    (sources : list Source.t) : result (str * t) :=
  location ← int0 location;
  sig_models ← mapM SIGModel.of_record sig_models;
  '(text, vendor_models) ← check_vendor_models name vendor_models;
  Ok (text, mk name location sig_models vendor_models sources).

Definition filenames (self : t) : list str :=
  Source.filename <$> sources self.

Definition num_s (self : t) : nat := length (sig_models self).
Definition num_v (self : t) : nat := length (vendor_models self).

Definition macros `{Builtins} (self : t) : result (list str) :=
  mapM (λ filename, to_c_macro (join (py "_") [filename; name self]))
       (filenames self).

(** The comprehension keeps a pair only when its group is truthy: not
    [None] and not the empty string. *)
Definition group_macros `{Builtins} (self : t) : result (list str) :=
  let filtered_source_pairs :=
    fromkeys ((λ s, (Source.filename s, Source.group s)) <$> sources self) in
  mapM to_c_macro
    (filtered_source_pairs ≫= λ src_pair,
       match src_pair.2 with
       | Some (c :: group) =>
           [join (py "_")
              [src_pair.1; py "group"; c :: group; py "elem_index"]]
       | _ => []
       end).

Definition is_mergeable_with (self other : t) : result bool :=
  if bool_decide (name self ≠ name other) then Ok false else
  let self_sig_models : gset Z :=
    list_to_set (SIGModel.mid <$> sig_models self) in
  let other_sig_models : gset Z :=
    list_to_set (SIGModel.mid <$> sig_models other) in
  if negb (bool_decide (self_sig_models ## other_sig_models)) then Ok false
  else
  self_vmids ← mapM VendorModel.vmid (vendor_models self);
  let self_vendor_models : gset Z := list_to_set self_vmids in
  other_vmids ← mapM VendorModel.vmid (vendor_models other);
  let other_vendor_models : gset Z := list_to_set other_vmids in
  if negb (bool_decide (self_vendor_models ## other_vendor_models))
  then Ok false
  else Ok true.

Definition set_sig_models (self : t) (l : list SIGModel.t) : t :=
  mk (name self) (location self) l (vendor_models self) (sources self).
Definition set_vendor_models (self : t) (l : list VendorModel.t) : t :=
  mk (name self) (location self) (sig_models self) l (sources self).
Definition set_sources (self : t) (l : list Source.t) : t :=
  mk (name self) (location self) (sig_models self) (vendor_models self) l.

(** [merge_with] mutates the object [self] in the store, one [extend]
    after the other; each [extend] reads the store as it then is. *)
Definition merge_with (h : gmap ref t) (self other : ref) : gmap ref t :=
  let h := <[self := set_sig_models (h !!! self)
      (sig_models (h !!! self) ++ sig_models (h !!! other))]> h in
  let h := <[self := set_vendor_models (h !!! self)
      (vendor_models (h !!! self) ++ vendor_models (h !!! other))]> h in
  let h := <[self := set_sources (h !!! self)
      (sources (h !!! self) ++ sources (h !!! other))]> h in
  h.
End Element.

Abbreviation heap := (gmap ref Element.t).

(** A new [Element] object gets a reference that the store does not
    use yet. *)
Definition new_element (h : heap) (obj : Element.t) : ref * heap :=
  let r := fresh (dom h) in (r, <[r := obj]> h).

(** The list comprehensions [[Element(...) for e in elements]] of
    [DCD.__init__] and [dcd_chunk]; [sources_of e] is the [sources]
    argument.  Returns the printed text and, unless a constructor
    raised, the store and the references of the new objects. *)
Fixpoint new_elements `{Builtins}
    (sources_of : Element.record → list Source.t)
    (h : heap) (elements : list Element.record)
    : str * result (heap * list ref) :=
  match elements with
  | [] => ([], Ok (h, []))
  | e :: rest =>
      match Element.__init__ (Element.r_name e) (Element.r_location e)
              (Element.r_group e) (Element.r_sig_models e)
              (Element.r_vendor_models e) (sources_of e) with
      | Raise x => ([], Raise x)
      | Ok (text, obj) =>
          let '(r, h) := new_element h obj in
          let '(text', res) := new_elements sources_of h rest in
          (text ++ text', '(h, refs) ← res; Ok (h, r :: refs))
      end
  end.

Module DCD.
Record t := mk {
  cid : Z;
  pid : Z;
  vid : Z;
  elements : list ref;
  unique_vendor_models : list VendorModel.t;
}.

(** The [sources] argument of the elements keeps its default, the empty
    list. *)
Definition __init__ `{Builtins} (h : heap) (cid pid vid : str)
    (elements : list Element.record) : str * result (heap * t) :=
  match (c ← int0 cid; p ← int0 pid; v ← int0 vid; Ok (c, p, v)) with
  | Raise x => ([], Raise x)
  | Ok (c, p, v) =>
      let '(text, res) := new_elements (λ _, []) h elements in
      (text, '(h, refs) ← res; Ok (h, mk c p v refs []))
  end.

Definition set_elements (self : t) (l : list ref) : t :=
  mk (cid self) (pid self) (vid self) l (unique_vendor_models self).
Definition set_unique_vendor_models (self : t) (l : list VendorModel.t) : t :=
  mk (cid self) (pid self) (vid self) (elements self) l.

Definition total_models (h : heap) (self : t) : nat :=
  sum_list_with
    (λ elem, Element.num_s (h !!! elem) + Element.num_v (h !!! elem))
    (elements self).

Definition total_elements (self : t) : nat := length (elements self).

(** The loop state is the flag [duplicated] and the list
    [dcd_vendor_model]; the store is only read. *)
Definition collect_v_models (h : heap) (self : t) : list VendorModel.t :=
  snd (foldl (λ st e,
    foldl (λ '(duplicated, dcd_vendor_model) me,
      let duplicated :=
        foldl (λ duplicated m_dcd,
          if bool_decide (VendorModel.name me = VendorModel.name m_dcd)
             || bool_decide (VendorModel.mid me = VendorModel.mid m_dcd)
          then true else duplicated) duplicated dcd_vendor_model in
      let dcd_vendor_model :=
        if bool_decide (duplicated = false)
        then dcd_vendor_model ++ [me] else dcd_vendor_model in
      (false, dcd_vendor_model))
    st (Element.vendor_models (h !!! e)))
  (false, []) (elements self)).

(** The inner [for element in self.elements: ... else: ...] of
    [add_chunk]: [Some h'] when the loop left through [break] with the
    store [h'], [None] when it ran to its end. *)
Fixpoint merge_into_first (h : heap) (elements : list ref) (e : ref)
    : result (option heap) :=
  match elements with
  | [] => Ok None
  | element :: rest =>
      b ← Element.is_mergeable_with (h !!! element) (h !!! e);
      if b : bool then Ok (Some (Element.merge_with h element e))
      else merge_into_first h rest e
  end.

(** One round of the outer loop of [add_chunk]. *)
Definition add_element (h : heap) (self : t) (e : ref) : result (heap * t) :=
  r ← merge_into_first h (elements self) e;
  match r with
  | Some h' => Ok (h', self)
  | None => Ok (h, set_elements self (elements self ++ [e]))
  end.

Fixpoint add_chunk (h : heap) (self : t) (chunk : list ref)
    : result (heap * t) :=
  match chunk with
  | [] => Ok (h, self)
  | e :: chunk =>
      '(h, self) ← add_element h self e;
      add_chunk h self chunk
  end.

Definition validation_error (source : Source.t) (group : str)
    (elem elem_other : Element.t) : str :=
  py "BtMeshGenerator: Duplicated group (" ++ group ++
  py ") from same file (" ++ Source.filename source ++
  py ".dcd) on different elements (" ++ Element.name elem ++ py ", " ++
  Element.name elem_other ++ py ").".

(** [validation_error_list] when the loops of [validate] are done. *)
Definition validation_error_list (h : heap) (elements : list ref) : list str :=
  mjoin (imap (λ elem_idx elem,
    elem_other_idx ← seq (elem_idx + 1) (length elements - (elem_idx + 1));
    let elem_other := elements !!! elem_other_idx in
    source ← Element.sources (h !!! elem);
    match Source.group source with
    | None => []
    | Some group =>
        if Source.contains (Element.sources (h !!! elem_other)) source
        then [validation_error source group (h !!! elem) (h !!! elem_other)]
        else []
    end) elements).

(** Returns the printed text and the outcome: [exit(-1)] raises
    [SystemExit(-1)], which nothing catches, so the process ends with a
    non-zero status. *)
Definition validate (h : heap) (self : t) : str * result () :=
  let l := validation_error_list h (elements self) in
  if bool_decide (l ≠ []) then (print (join nl l), Raise (SystemExit (-1)))
  else ([], Ok ()).

(** The first statement of [dcdgen]. *)
Definition dcdgen_collect (h : heap) (self : t) : heap * t :=
  (h, set_unique_vendor_models self (collect_v_models h self)).
End DCD.

(** Every element of the chunk carries the one source that names the
    file and the group of its entry ([e.get("group")] is [None] when
    the entry has no group). *)
Definition dcd_chunk `{Builtins} (h : heap) (filename : str)
    (elements : list Element.record) : str * result (heap * list ref) :=
  new_elements (λ e, [Source.mk filename (Element.r_group e)]) h elements.

(** ** A reference instance of the builtins

    ASCII only: a character outside ASCII is taken as neither letter nor
    digit and is its own upper case.  [ascii_int0] reads an optional sign
    followed by decimal digits or by [0x] and hexadecimal digits, the two
    forms that fragment files use; it rejects the other forms that [int]
    accepts (octal, binary, digit separators, surrounding white space). *)

Definition digit_value (c : char) : option Z :=
  if ascii_isdigit c then Some (Z.of_N c - 48)%Z
  else if (97 <=? c)%N && (c <=? 102)%N then Some (Z.of_N c - 87)%Z
  else if (65 <=? c)%N && (c <=? 70)%N then Some (Z.of_N c - 55)%Z
  else None.

Fixpoint digits (base acc : Z) (s : str) : result Z :=
  match s with
  | [] => Ok acc
  | c :: s =>
      match digit_value c with
      | Some d =>
          if (d <? base)%Z then digits base (acc * base + d)%Z s
          else Raise ValueError
      | None => Raise ValueError
      end
  end.

Definition unsigned_literal (s : str) : result Z :=
  match s with
  | [] => Raise ValueError
  | 48%N :: x :: d :: s =>
      if bool_decide (x = 120%N ∨ x = 88%N) then digits 16 0 (d :: s)
      else
        (* a decimal literal with a leading zero is zero or malformed *)
        v ← digits 10 0 (x :: d :: s);
        if bool_decide (v = 0%Z) then Ok 0%Z else Raise ValueError
  | 48%N :: s =>
      v ← digits 10 0 s;
      if bool_decide (v = 0%Z) then Ok 0%Z else Raise ValueError
  | _ => digits 10 0 s
  end.

Definition ascii_int0 (s : str) : result Z :=
  match s with
  | 45%N :: s => v ← unsigned_literal s; Ok (- v)%Z
  | 43%N :: s => unsigned_literal s
  | _ => unsigned_literal s
  end.

Definition ascii_builtins : Builtins.
Proof.
  refine {|
    isalnum c := (c <? 128)%N && ascii_isalnum c;
    isdigit c := (c <? 128)%N && ascii_isdigit c;
    upper c := [if (c <? 128)%N then ascii_upper c else c];
    int0 := ascii_int0;
  |}.
  - intros c Hc. apply N.ltb_lt in Hc. by rewrite Hc.
  - intros c Hc. apply N.ltb_lt in Hc. by rewrite Hc.
  - intros c Hc. apply N.ltb_lt in Hc. by rewrite Hc.
  - intros c [-> Hd]%andb_prop. unfold ascii_isalnum. by rewrite Hd.
Defined.

(** ** Vocabulary of the statements *)

(** What [re.sub("\W", "_", ...)] makes of one character. *)
Definition keep_or_underscore `{Builtins} (c : char) : char :=
  if isalnum c || bool_decide (c = underscore) then c else underscore.

Definition is_ascii (s : str) : Prop := Forall (λ c, (c < 128)%N) s.

(** The state of [target] after [other] has been merged into it. *)
Definition merged (target other : Element.t) : Element.t :=
  Element.mk (Element.name target) (Element.location target)
    (Element.sig_models target ++ Element.sig_models other)
    (Element.vendor_models target ++ Element.vendor_models other)
    (Element.sources target ++ Element.sources other).

(** Every vendor model of the element has a key: the shift count
    [16 + cid] is not negative. *)
Definition keys_defined (e : Element.t) : Prop :=
  ∀ x, x ∈ Element.vendor_models e → (0 ≤ 16 + VendorModel.cid x)%Z.

(** Two vendor models collide for [check_vendor_models] and for
    [collect_v_models] when they have the same name or the same [mid]. *)
Definition shares_name_or_mid (m n : VendorModel.t) : Prop :=
  VendorModel.name m = VendorModel.name n ∨
  VendorModel.mid m = VendorModel.mid n.

#[global] Instance shares_name_or_mid_dec m n :
  Decision (shares_name_or_mid m n).
Proof. unfold shares_name_or_mid. apply _. Defined.

(** The same with the derived key [vmid] in the place of [mid]. *)
Definition shares_name_or_vmid (m n : VendorModel.t) : Prop :=
  VendorModel.name m = VendorModel.name n ∨
  VendorModel.vmid m = VendorModel.vmid n.

#[global] Instance shares_name_or_vmid_dec m n :
  Decision (shares_name_or_vmid m n).
Proof. unfold shares_name_or_vmid. apply _. Defined.

(** Some model of the list collides with a later one. *)
Definition has_duplicate (l : list VendorModel.t) : Prop :=
  ∃ i j m n,
    i < j ∧ l !! i = Some m ∧ l !! j = Some n ∧ shares_name_or_mid m n.

(** The vendor models of a DCD in the order in which the aggregator
    meets them: elements in order, models of each element in order. *)
Definition candidates (h : heap) (d : DCD.t) : list VendorModel.t :=
  e ← DCD.elements d; Element.vendor_models (h !!! e).

(** Append the candidate unless an accumulated entry collides with it. *)
Definition keep_first (collides : VendorModel.t → VendorModel.t → Prop)
    `{∀ m n, Decision (collides m n)}
    (acc : list VendorModel.t) (me : VendorModel.t) : list VendorModel.t :=
  if decide (Exists (collides me) acc) then acc else acc ++ [me].

Definition first_occurrences
    (collides : VendorModel.t → VendorModel.t → Prop)
    `{∀ m n, Decision (collides m n)}
    (l : list VendorModel.t) : list VendorModel.t :=
  foldl (keep_first collides) [] l.

(** The innermost loop of [collect_v_models] and the body of the loop
    around it, named for the proofs. *)
Definition flag_loop (me : VendorModel.t) (duplicated : bool)
    (dcd_vendor_model : list VendorModel.t) : bool :=
  foldl (λ duplicated m_dcd,
          if bool_decide (VendorModel.name me = VendorModel.name m_dcd)
             || bool_decide (VendorModel.mid me = VendorModel.mid m_dcd)
          then true else duplicated) duplicated dcd_vendor_model.

Definition candidate_step
    : bool * list VendorModel.t → VendorModel.t → bool * list VendorModel.t :=
  λ '(duplicated, dcd_vendor_model) me,
  let duplicated := flag_loop me duplicated dcd_vendor_model in
  let dcd_vendor_model :=
    if bool_decide (duplicated = false)
    then dcd_vendor_model ++ [me] else dcd_vendor_model in
  (false, dcd_vendor_model).

(** The elements at positions [i < j] of the list both carry the source
    [s], whose group is present and is [g]. *)
Definition shared_group (h : heap) (els : list ref)
    (i j : nat) (e e' : ref) (s : Source.t) (g : str) : Prop :=
  i < j ∧ els !! i = Some e ∧ els !! j = Some e' ∧
  s ∈ Element.sources (h !!! e) ∧
  Source.group s = Some g ∧
  s ∈ Element.sources (h !!! e').

Definition ambiguous_group (h : heap) (els : list ref) : Prop :=
  ∃ i j e e' s g, shared_group h els i j e e' s g.

(** The same for a group that is present and not the empty string. *)
Definition ambiguous_nonempty_group (h : heap) (els : list ref) : Prop :=
  ∃ i j e e' s g, shared_group h els i j e e' s g ∧ g ≠ [].

(** The number of models of the object [r], and of a list of objects. *)
Definition models_of (h : heap) (r : ref) : nat :=
  Element.num_s (h !!! r) + Element.num_v (h !!! r).

Definition chunk_models (h : heap) (chunk : list ref) : nat :=
  sum_list_with (models_of h) chunk.

(** No element of the list is mergeable with the incoming element [e]. *)
Definition rejects (h : heap) (els : list ref) (e : ref) : Prop :=
  ∀ x, x ∈ els → Element.is_mergeable_with (h !!! x) (h !!! e) = Ok false.

Definition keys_defined_on (h : heap) (refs : list ref) : Prop :=
  ∀ r, r ∈ refs → keys_defined (h !!! r).

(** Two elements of the same name, one of each chunk, never share a SIG
    model [mid] nor a vendor model [vmid]. *)
Definition no_cross_chunk_collisions (h : heap) (c1 c2 : list ref) : Prop :=
  ∀ a b, a ∈ c1 → b ∈ c2 →
    Element.name (h !!! a) = Element.name (h !!! b) →
    (∀ x y, x ∈ Element.sig_models (h !!! a) →
            y ∈ Element.sig_models (h !!! b) →
            SIGModel.mid x ≠ SIGModel.mid y) ∧
    (∀ x y, x ∈ Element.vendor_models (h !!! a) →
            y ∈ Element.vendor_models (h !!! b) →
            VendorModel.vmid x ≠ VendorModel.vmid y).

(** ** Vocabulary of the further properties *)

(** What [to_c_macro] makes of one ASCII character. *)
Definition ascii_macro_char (c : char) : char :=
  ascii_upper (if ascii_isalnum c || bool_decide (c = underscore)
               then c else underscore).

Definition starts_with_digit (s : str) : bool :=
  match s with
  | c :: _ => ascii_isdigit c
  | [] => false
  end.

(** The characters of a macro name: capital letters, digits and the
    underscore. *)
Definition is_macro_char (c : char) : bool :=
  ascii_isupper c || ascii_isdigit c || bool_decide (c = underscore).

(** The body of the loop of [fromkeys], named for the proofs. *)
Definition fromkeys_step `{EqDecision K} (d : list K) (k : K) : list K :=
  if decide (k ∈ d) then d else d ++ [k].

(** The text that [group_macros] hands to [to_c_macro] for a filename
    and a group. *)
Definition group_macro_name (pair : str * str) : str :=
  pair.1 ++ py "_group_" ++ pair.2 ++ py "_elem_index".

(** The (filename, group) pairs for which [group_macros] makes a macro,
    in the order of the macros. *)
Definition named_group_pairs (self : Element.t) : list (str * str) :=
  fromkeys ((λ s, (Source.filename s, Source.group s))
            <$> Element.sources self)
    ≫= λ src_pair, match src_pair.2 with
                   | Some (c :: group) => [(src_pair.1, c :: group)]
                   | _ => []
                   end.

(** From the store [h] to the store [h'] every object has kept its name
    and its location and has only been extended at the end of its
    lists. *)
Definition grows (h h' : heap) : Prop :=
  ∀ r,
    Element.name (h' !!! r) = Element.name (h !!! r) ∧
    Element.location (h' !!! r) = Element.location (h !!! r) ∧
    Element.sig_models (h !!! r) `prefix_of` Element.sig_models (h' !!! r) ∧
    Element.vendor_models (h !!! r) `prefix_of`
      Element.vendor_models (h' !!! r) ∧
    Element.sources (h !!! r) `prefix_of` Element.sources (h' !!! r).

(** No two SIG models of the element have the same [mid], no two
    vendor models the same [vmid]. *)
Definition unique_keys (e : Element.t) : Prop :=
  NoDup (SIGModel.mid <$> Element.sig_models e) ∧
  NoDup (VendorModel.vmid <$> Element.vendor_models e).

(** The object [r] of the store [h'] carries, in order, everything the
    element state [e] carries, under the same name. *)
Definition carries (h' : heap) (r : ref) (e : Element.t) : Prop :=
  Element.name (h' !!! r) = Element.name e ∧
  Element.sig_models e `sublist_of` Element.sig_models (h' !!! r) ∧
  Element.vendor_models e `sublist_of` Element.vendor_models (h' !!! r) ∧
  Element.sources e `sublist_of` Element.sources (h' !!! r).

Definition name_of (h : heap) (r : ref) : str := Element.name (h !!! r).

(** Every numeric literal of the record is accepted by [int(x, 0)]. *)
Definition literals_parse `{Builtins} (rec : Element.record) : Prop :=
  (∃ loc, int0 (Element.r_location rec) = Ok loc) ∧
  (∀ m, m ∈ Element.r_sig_models rec →
        ∃ v, int0 (SIGModel.r_mid m) = Ok v) ∧
  (∀ m, m ∈ Element.r_vendor_models rec →
        (∃ v, int0 (VendorModel.r_mid m) = Ok v) ∧
        (∃ v, int0 (VendorModel.r_cid m) = Ok v)).

(** No entry of the list has the name or the [mid] of an earlier one. *)
Definition pairwise_distinct (l : list VendorModel.t) : Prop :=
  ∀ i j m n, i < j → l !! i = Some m → l !! j = Some n →
             ¬ shares_name_or_mid n m.

(** ** Sample data *)

Definition vendor_a : VendorModel.t := VendorModel.mk 1 1 (py "a").
(** Same [mid] as [vendor_a], another company: another [vmid]. *)
Definition vendor_b : VendorModel.t := VendorModel.mk 1 2 (py "b").
(** Another [mid] than [vendor_a], and the same [vmid]. *)
Definition vendor_c : VendorModel.t := VendorModel.mk 2 0 (py "c").

Definition main_1 : Element.t :=
  Element.mk (py "main") 0 [SIGModel.mk 4096 (py "Generic OnOff Server")]
    [vendor_a] [Source.mk (py "lighting") (Some (py "ctl"))].
Definition main_2 : Element.t :=
  Element.mk (py "main") 0 [SIGModel.mk 4098 (py "Generic Level Server")]
    [vendor_b] [Source.mk (py "sensor") None].
Definition second : Element.t :=
  Element.mk (py "second") 1 [SIGModel.mk 4096 (py "Generic OnOff Server")]
    [vendor_c] [Source.mk (py "lighting") (Some (py "ctl"))].
(** Two elements fed by the same file under an empty group name. *)
Definition left : Element.t :=
  Element.mk (py "left") 0 [] [] [Source.mk (py "f") (Some (py ""))].
Definition right : Element.t :=
  Element.mk (py "right") 0 [] [] [Source.mk (py "f") (Some (py ""))].

Definition sample_heap : heap :=
  <[0 := main_1]> (<[1 := main_2]> (<[2 := second]>
    (<[3 := left]> (<[4 := right]> ∅)))).

Definition sample_dcd (elements : list ref) : DCD.t := DCD.mk 1 2 3 elements [].

(** Two raw records of a fragment file. *)
Definition sample_records : list Element.record :=
  [Element.mk_record (py "main") (py "0x0") (Some (py "ctl"))
     [SIGModel.mk_record (py "0x1000") (py "Generic OnOff Server")] [];
   Element.mk_record (py "second") (py "1") None [] []].

(** * Properties *)

(** ** Identifier derivation *)

Section identifier_derivation.
Context `{Builtins}.

Lemma re_sub_W_underscore (s : str) :
  re_sub_W (py "_") s = keep_or_underscore <$> s.
Proof.
  induction s as [|c s IH]; [done|].
  unfold re_sub_W in *. rewrite bind_cons, IH, fmap_cons.
  unfold keep_or_underscore, is_word. by destruct (_ || _).
Qed.

Lemma isdigit_underscore : isdigit underscore = false.
Proof. by rewrite isdigit_ascii. Qed.

(** The leading-digit test reads the substituted string, but the
    substitution never creates nor removes a leading digit. *)
Lemma isdigit_keep_or_underscore (c : char) :
  isdigit (keep_or_underscore c) = isdigit c.
Proof.
  unfold keep_or_underscore.
  destruct (isalnum c || bool_decide (c = underscore)) eqn:Hw; [done|].
  apply orb_false_elim in Hw as [Hc _].
  rewrite isdigit_underscore. symmetry. apply not_true_is_false.
  intros Hd%isdigit_isalnum. congruence.
Qed.

Lemma str_upper_app (s1 s2 : str) :
  str_upper (s1 ++ s2) = str_upper s1 ++ str_upper s2.
Proof. apply bind_app. Qed.

Lemma str_upper_underscore : str_upper (py "_") = py "_".
Proof. unfold str_upper. cbn. by rewrite upper_ascii. Qed.

Lemma to_c_macro_cons (c : char) (rest : str) :
  to_c_macro (c :: rest) =
    Ok (str_upper (keep_or_underscore <$> c :: rest) ++
        (if isdigit c then py "_" else [])).
Proof.
  unfold to_c_macro. rewrite re_sub_W_underscore, fmap_cons.
  cbn [getitem0 mbind result_bind].
  rewrite isdigit_keep_or_underscore, str_upper_app.
  destruct (isdigit c); [by rewrite str_upper_underscore|done].
Qed.
End identifier_derivation.

(** On ASCII text every instance of the builtins computes what the
    reference instance computes. *)
Section ascii_inputs.
Context `{Builtins}.

Lemma keep_or_underscore_ascii (c : char) :
  (c < 128)%N →
  keep_or_underscore c = @keep_or_underscore ascii_builtins c ∧
  (keep_or_underscore c < 128)%N.
Proof.
  intros Hc. unfold keep_or_underscore. rewrite isalnum_ascii by done.
  cbn. apply N.ltb_lt in Hc as Hc'. rewrite Hc'. cbn.
  split; [done|]. destruct (_ || _); [done|]. unfold underscore. lia.
Qed.

Lemma fmap_keep_or_underscore_ascii (s : str) :
  is_ascii s →
  keep_or_underscore <$> s = @keep_or_underscore ascii_builtins <$> s ∧
  is_ascii (keep_or_underscore <$> s).
Proof.
  induction 1 as [|x l Hx _ [IH1 IH2]]; [by split; [|constructor]|].
  destruct (keep_or_underscore_ascii x Hx) as [E1 E2].
  rewrite !fmap_cons, E1, IH1. split; [done|].
  constructor; [by rewrite <- E1|]. by rewrite <- IH1.
Qed.

Lemma str_upper_ascii (s : str) :
  is_ascii s → str_upper s = @str_upper ascii_builtins s.
Proof.
  induction 1 as [|c s Hc _ IH]; [done|].
  unfold str_upper in *. rewrite !bind_cons, IH, upper_ascii by done.
  cbn. apply N.ltb_lt in Hc. by rewrite Hc.
Qed.

Lemma to_c_macro_ascii (s : str) :
  is_ascii s → to_c_macro s = @to_c_macro ascii_builtins s.
Proof.
  destruct s as [|c s]; [done|]. intros Hs.
  rewrite to_c_macro_cons, (@to_c_macro_cons ascii_builtins).
  destruct (fmap_keep_or_underscore_ascii _ Hs) as [Hk1 Hk2].
  rewrite str_upper_ascii by done. rewrite <- Hk1.
  inversion Hs; subst. rewrite isdigit_ascii by done.
  cbn. assert ((c <? 128)%N = true) as -> by by apply N.ltb_lt. done.
Qed.

End ascii_inputs.

Section identifier_derivation_claims.
Context `{Builtins}.

(** C6.  On a non-empty input [c :: rest], [to_c_macro] returns the
    upper-cased text in which every character that is not alphanumeric
    and not an underscore has become an underscore, followed (not
    preceded) by one underscore exactly when the first character [c] of
    the original input is a digit.  In particular ["ab-cd"] gives
    ["AB_CD"] and ["3abc"] gives ["3ABC_"], whatever the Unicode tables
    say outside ASCII. *)
Theorem to_c_macro_spec (c : char) (rest : str) :
  to_c_macro (c :: rest) =
    Ok (str_upper (keep_or_underscore <$> c :: rest) ++
        (if isdigit c then py "_" else []))
  ∧ to_c_macro (py "ab-cd") = Ok (py "AB_CD")
  ∧ to_c_macro (py "3abc") = Ok (py "3ABC_").
Proof.
  split; [apply to_c_macro_cons|].
  split; (rewrite to_c_macro_ascii; [by vm_compute|]);
    unfold is_ascii; cbn; repeat constructor.
Qed.

(** C10.  [to_c_macro] returns a string on every non-empty input, and
    raises [IndexError] on the empty string: the substituted string is
    then empty and has no first character to test. *)
Theorem to_c_macro_defined_iff_nonempty :
  (∀ name : str, name ≠ [] → ∃ macro, to_c_macro name = Ok macro) ∧
  re_sub_W (py "_") [] = [] ∧
  getitem0 [] = Raise IndexError ∧
  to_c_macro [] = Raise IndexError.
Proof.
  split; [|done].
  intros [|c rest] Hne; [done|].
  rewrite to_c_macro_cons. eauto.
Qed.
End identifier_derivation_claims.

Lemma to_c_macro_spec_witness :
  @to_c_macro ascii_builtins (py "7-up") = Ok (py "7_UP_").
Proof.
  destruct (@to_c_macro_spec ascii_builtins 55%N (py "-up")) as [E _].
  exact E.
Defined.

Lemma to_c_macro_defined_iff_nonempty_witness :
  ∃ macro, @to_c_macro ascii_builtins (py "main") = Ok macro.
Proof.
  destruct (@to_c_macro_defined_iff_nonempty ascii_builtins) as [Hdef _].
  apply Hdef. discriminate.
Defined.

(** ** The vendor model key *)

Section vendor_model_key.
Import VendorModel.

Lemma vmid_value (v : VendorModel.t) :
  vmid v = if (16 + cid v <? 0)%Z then Raise ValueError
           else Ok (mid v * 2 ^ (16 + cid v))%Z.
Proof.
  unfold vmid, lshift.
  destruct (Z.ltb_spec (16 + cid v) 0) as [Hneg|Hpos]; [done|].
  by rewrite Z.shiftl_mul_pow2.
Qed.

Lemma vmid_defined (v : VendorModel.t) :
  (0 ≤ 16 + cid v)%Z → vmid v = Ok (mid v * 2 ^ (16 + cid v))%Z.
Proof.
  intros Hc. rewrite vmid_value.
  by destruct (Z.ltb_spec (16 + cid v) 0); [lia|].
Qed.

(** The low sixteen bits of [m << (16 + c)] are zero, those of
    [(m << 16) | c] and of [(m << 16) + c] are [c]. *)
Lemma shifted_low_bits (m c : Z) :
  (0 < c < 2 ^ 16)%Z →
  (m * 2 ^ (16 + c))%Z ≠ Z.lor (Z.shiftl m 16) c ∧
  (m * 2 ^ (16 + c))%Z ≠ (Z.shiftl m 16 + c)%Z.
Proof.
  intros [Hc0 Hc1].
  assert (Hmod : ((m * 2 ^ (16 + c)) mod 2 ^ 16 = 0)%Z).
  { rewrite Z.pow_add_r by lia.
    rewrite Z.mul_assoc, (Z.mul_comm m), <- Z.mul_assoc.
    rewrite Z.mul_comm. apply Z.mod_mul. lia. }
  assert (Hc : (c mod 2 ^ 16 = c)%Z) by (apply Z.mod_small; lia).
  split; intros Heq; rewrite Heq in Hmod.
  - rewrite <- Z.land_ones in Hmod by lia.
    rewrite Z.land_lor_distr_l in Hmod.
    rewrite !Z.land_ones in Hmod by lia.
    rewrite Z.shiftl_mul_pow2 in Hmod by lia.
    rewrite Z.mod_mul in Hmod by lia.
    rewrite Z.lor_0_l, Hc in Hmod. lia.
  - rewrite Z.shiftl_mul_pow2 in Hmod by lia.
    rewrite Z.add_comm, Z.mod_add in Hmod by lia. lia.
Qed.

(** C1.  For a vendor model with model id [mid] and company id [cid],
    [vmid] is [mid] shifted left by [16 + cid] places, that is
    [mid * 2 ^ (16 + cid)]; Python's shift raises [ValueError] when the
    count [16 + cid] is negative, and so does [vmid].  The key is not
    [mid] shifted by sixteen and then combined with [cid]: for every
    company id in 1 .. 65535 it differs both from [(mid << 16) | cid] and
    from [(mid << 16) + cid]. *)
Theorem vmid_shift_count_depends_on_cid (v : VendorModel.t) :
  vmid v = lshift (mid v) (16 + cid v) ∧
  vmid v = (if (16 + cid v <? 0)%Z then Raise ValueError
            else Ok (mid v * 2 ^ (16 + cid v))%Z) ∧
  ((0 < cid v < 2 ^ 16)%Z →
   vmid v ≠ Ok (Z.lor (Z.shiftl (mid v) 16) (cid v)) ∧
   vmid v ≠ Ok (Z.shiftl (mid v) 16 + cid v)%Z).
Proof.
  split; [done|]. split; [apply vmid_value|].
  intros Hc. rewrite vmid_defined by lia.
  destruct (shifted_low_bits (mid v) (cid v) Hc) as [Hor Hadd].
  split; congruence.
Qed.
End vendor_model_key.

Lemma vmid_shift_count_depends_on_cid_witness :
  VendorModel.vmid (VendorModel.mk 1 2 (py "vendor")) = Ok 262144%Z ∧
  VendorModel.vmid (VendorModel.mk 1 2 (py "vendor")) ≠ Ok 65538%Z.
Proof.
  destruct (vmid_shift_count_depends_on_cid
              (VendorModel.mk 1 2 (py "vendor"))) as (_ & Hval & Hne).
  split; [exact Hval|].
  apply Hne. cbn. lia.
Defined.

(** ** The exception monad *)

Lemma bind_Ok {A B} (m : result A) (k : A → result B) (b : B) :
  m ≫= k = Ok b ↔ ∃ a, m = Ok a ∧ k a = Ok b.
Proof.
  destruct m as [a|e]; cbn.
  - split; [eauto|]. by intros (? & [= <-] & ?).
  - split; [done|]. by intros (? & ? & ?).
Qed.

Section result_monad.
Context {A B : Type}.
Implicit Types (f : A → result B) (l : list A).

Lemma mapM_Ok f l (k : list B) :
  mapM f l = Ok k ↔ Forall2 (λ x y, f x = Ok y) l k.
Proof.
  revert k. induction l as [|x l IH]; intros k; cbn.
  - split; [intros [= <-]; constructor|by inversion 1].
  - split.
    + intros (y & Hy & (k' & Hk' & [= <-])%bind_Ok)%bind_Ok.
      constructor; [done|by apply IH].
    + inversion 1 as [|? y ? k' Hy Hk']; subst.
      rewrite Hy. cbn. apply IH in Hk'. by rewrite Hk'.
Qed.

Lemma mapM_defined f l :
  (∀ x, x ∈ l → ∃ y, f x = Ok y) ↔ ∃ k, mapM f l = Ok k.
Proof.
  induction l as [|x l IH]; cbn.
  - split; [eauto|]. intros _ x Hx. by apply elem_of_nil in Hx.
  - split.
    + intros Hl. destruct (Hl x) as [y Hy]; [left|].
      destruct (proj1 IH) as [k Hk]; [intros; apply Hl; by right|].
      exists (y :: k). by rewrite Hy; cbn; rewrite Hk.
    + intros [k (y & Hy & (k' & Hk' & _)%bind_Ok)%bind_Ok] z
        [->|Hz]%elem_of_cons; [eauto|].
      apply IH; eauto.
Qed.

Lemma mapM_Ok_elem_of f l (k : list B) (y : B) :
  mapM f l = Ok k → (y ∈ k ↔ ∃ x, x ∈ l ∧ f x = Ok y).
Proof.
  intros Hk%mapM_Ok. induction Hk as [|x y' l k Hy _ IH].
  - split; [by intros ?%elem_of_nil|by intros (? & ?%elem_of_nil & _)].
  - rewrite elem_of_cons, IH. split.
    + intros [->|(x' & ? & ?)]; [exists x|exists x'];
        by rewrite elem_of_cons; eauto.
    + intros (x' & [->|?]%elem_of_cons & Hx');
        [left; congruence|right; eauto].
Qed.
End result_monad.

(** ** Mergeability and merging *)

Section mergeability.
Import Element.

Lemma list_to_set_disjoint (l1 l2 : list Z) :
  (list_to_set l1 : gset Z) ## list_to_set l2 ↔
  ∀ x, x ∈ l1 → x ∈ l2 → False.
Proof.
  split.
  - intros Hd x H1 H2. apply (Hd x); by apply elem_of_list_to_set.
  - intros Hd x H1%elem_of_list_to_set H2%elem_of_list_to_set. eauto.
Qed.

Lemma sig_mids_disjoint (a b : Element.t) :
  (list_to_set (SIGModel.mid <$> sig_models a) : gset Z) ##
    list_to_set (SIGModel.mid <$> sig_models b) ↔
  ∀ x y, x ∈ sig_models a → y ∈ sig_models b →
         SIGModel.mid x ≠ SIGModel.mid y.
Proof.
  rewrite list_to_set_disjoint. split.
  - intros Hd x y Hx Hy Heq.
    apply (Hd (SIGModel.mid x)); apply list_elem_of_fmap; [by eauto|].
    exists y. by rewrite Heq.
  - intros Hd k (x & -> & Hx)%list_elem_of_fmap
      (y & Heq & Hy)%list_elem_of_fmap.
    by apply (Hd x y).
Qed.

Lemma vmids_disjoint (la lb : list VendorModel.t) (ka kb : list Z) :
  mapM VendorModel.vmid la = Ok ka →
  mapM VendorModel.vmid lb = Ok kb →
  (list_to_set ka : gset Z) ## list_to_set kb ↔
  ∀ x y, x ∈ la → y ∈ lb → VendorModel.vmid x ≠ VendorModel.vmid y.
Proof.
  intros Ha Hb. rewrite list_to_set_disjoint.
  setoid_rewrite (mapM_Ok_elem_of _ _ _ _ Ha).
  setoid_rewrite (mapM_Ok_elem_of _ _ _ _ Hb).
  split.
  - intros Hd x y Hx Hy Heq.
    destruct (proj2 (mapM_defined VendorModel.vmid la) (ex_intro _ _ Ha) x Hx)
      as [k Hk].
    apply (Hd k); [by eauto|]. exists y. split; [done|congruence].
  - intros Hd k (x & Hx & Hxk) (y & Hy & Hyk). apply (Hd x y); congruence.
Qed.

Lemma vmids_defined (a b : Element.t) :
  (∀ x, x ∈ vendor_models a ++ vendor_models b →
        ∃ k, VendorModel.vmid x = Ok k) ↔
  ∃ ka kb, mapM VendorModel.vmid (vendor_models a) = Ok ka ∧
           mapM VendorModel.vmid (vendor_models b) = Ok kb.
Proof.
  setoid_rewrite elem_of_app. split.
  - intros Hx.
    destruct (proj1 (mapM_defined VendorModel.vmid (vendor_models a)))
      as [ka Hka]; [by eauto|].
    destruct (proj1 (mapM_defined VendorModel.vmid (vendor_models b)))
      as [kb Hkb]; [by eauto|]. eauto.
  - intros (ka & kb & Hka & Hkb) x [Hx|Hx].
    + by apply (proj2 (mapM_defined _ _) (ex_intro _ _ Hka)).
    + by apply (proj2 (mapM_defined _ _) (ex_intro _ _ Hkb)).
Qed.

Lemma is_mergeable_with_true (a b : Element.t) :
  is_mergeable_with a b = Ok true ↔
    name a = name b ∧
    (∀ x y, x ∈ sig_models a → y ∈ sig_models b →
            SIGModel.mid x ≠ SIGModel.mid y) ∧
    (∀ x, x ∈ vendor_models a ++ vendor_models b →
          ∃ k, VendorModel.vmid x = Ok k) ∧
    (∀ x y, x ∈ vendor_models a → y ∈ vendor_models b →
            VendorModel.vmid x ≠ VendorModel.vmid y).
Proof.
  unfold is_mergeable_with. rewrite vmids_defined.
  case_bool_decide as Hn.
  { split; [done|]. by intros (? & _). }
  case_bool_decide as Hs; cbn [negb].
  2:{ split; [done|]. intros (_ & ?%sig_mids_disjoint & _). done. }
  split.
  - intros (ka & Hka & (kb & Hkb & Hr)%bind_Ok)%bind_Ok.
    case_bool_decide as Hv; [|done]. cbn in Hr.
    split; [done|]. split; [by apply sig_mids_disjoint|].
    split; [by eauto|]. by eapply vmids_disjoint.
  - intros (_ & _ & (ka & kb & Hka & Hkb) & Hv).
    rewrite Hka, Hkb. cbn.
    rewrite bool_decide_true; [done|]. by eapply vmids_disjoint.
Qed.

(** With every key defined the predicate raises nothing. *)
Lemma is_mergeable_with_total (a b : Element.t) :
  keys_defined a → keys_defined b → ∃ r, is_mergeable_with a b = Ok r.
Proof.
  intros Ha Hb.
  destruct (proj1 (vmids_defined a b)) as (ka & kb & Hka & Hkb).
  { intros x [Hx|Hx]%elem_of_app; rewrite vmid_defined by auto; eauto. }
  unfold is_mergeable_with. rewrite Hka, Hkb. cbn.
  repeat case_bool_decide; cbn; eauto.
Qed.

(** C2.  [is_mergeable_with a b] returns true exactly when the names
    are equal, no SIG model of [a] has the [mid] of a SIG model of [b],
    and no vendor model of [a] has the [vmid] of a vendor model of [b],
    the [vmid] values being defined (a [vmid] whose shift count is
    negative raises, and then the predicate returns nothing).  When
    every vendor model has a defined key the predicate always returns a
    boolean. *)
Theorem is_mergeable_with_iff (a b : Element.t) :
  (is_mergeable_with a b = Ok true ↔
     name a = name b ∧
     (∀ x y, x ∈ sig_models a → y ∈ sig_models b →
             SIGModel.mid x ≠ SIGModel.mid y) ∧
     (∀ x, x ∈ vendor_models a ++ vendor_models b →
           ∃ k, VendorModel.vmid x = Ok k) ∧
     (∀ x y, x ∈ vendor_models a → y ∈ vendor_models b →
             VendorModel.vmid x ≠ VendorModel.vmid y)) ∧
  (keys_defined a → keys_defined b → ∃ r, is_mergeable_with a b = Ok r).
Proof. split; [apply is_mergeable_with_true|apply is_mergeable_with_total]. Qed.
End mergeability.

Section merge.
Import Element.
Implicit Types (h : heap) (target other r : ref).

Lemma merge_with_insert h target other :
  merge_with h target other =
    <[target := merged (h !!! target) (h !!! other)]> h.
Proof.
  unfold merge_with, merged, set_sig_models, set_vendor_models, set_sources.
  destruct (decide (target = other)) as [<-|Hne].
  - by rewrite !lookup_total_insert_eq, !insert_insert_eq.
  - rewrite !lookup_total_insert_eq.
    rewrite !lookup_total_insert_ne by done.
    by rewrite !insert_insert_eq.
Qed.

(** C9.  After [merge_with] the three lists of the target object are
    its former lists followed by those of [other], element for element
    (nothing is dropped, nothing is checked); its name and location are
    what they were, and no other object of the store has changed.  This
    holds also when [other] is the target itself. *)
Theorem merge_with_concatenates h target other :
  let h' := merge_with h target other in
  sig_models (h' !!! target) =
    sig_models (h !!! target) ++ sig_models (h !!! other) ∧
  vendor_models (h' !!! target) =
    vendor_models (h !!! target) ++ vendor_models (h !!! other) ∧
  sources (h' !!! target) =
    sources (h !!! target) ++ sources (h !!! other) ∧
  name (h' !!! target) = name (h !!! target) ∧
  location (h' !!! target) = location (h !!! target) ∧
  (∀ r, r ≠ target → h' !! r = h !! r).
Proof.
  cbn zeta. rewrite merge_with_insert, lookup_total_insert_eq.
  repeat split. intros r Hr. by rewrite lookup_insert_ne.
Qed.
End merge.

(** ** Construction of an element *)

Section construction.
Import Element.
Implicit Types (m n : VendorModel.t) (l rest : list VendorModel.t).

Lemma check_against_None self_name m rest :
  check_against self_name m rest = None ↔
  ∀ n, n ∈ rest → ¬ shares_name_or_mid m n.
Proof.
  unfold shares_name_or_mid.
  induction rest as [|n rest IH]; cbn.
  - split; [|done]. by intros _ n ?%elem_of_nil.
  - repeat case_bool_decide.
    + split; [done|]. intros Hn. destruct (Hn n); [left|]; auto.
    + split; [done|]. intros Hn. destruct (Hn n); [left|]; auto.
    + rewrite IH. split.
      * intros Hr n' [->|?]%elem_of_cons; [tauto|auto].
      * intros Hr n' ?. apply Hr. by right.
Qed.

Lemma check_against_Some self_name m rest text :
  check_against self_name m rest = Some text →
  (∃ n, n ∈ rest ∧ shares_name_or_mid m n) ∧
  (text = duplicated_name_text self_name m ∨
   text = duplicated_mid_text self_name m).
Proof.
  unfold shares_name_or_mid.
  induction rest as [|n rest IH]; cbn; [done|].
  repeat case_bool_decide.
  - intros [= <-]. split; [exists n; split; [left|]|]; auto.
  - intros [= <-]. split; [exists n; split; [left|]|]; auto.
  - intros [(n' & ? & ?) ?]%IH. split; [|done].
    exists n'. split; [by right|done].
Qed.

Lemma duplicated_text_nonempty self_name m :
  duplicated_name_text self_name m ≠ [] ∧
  duplicated_mid_text self_name m ≠ [].
Proof. done. Qed.

Lemma has_duplicate_cons m l :
  has_duplicate (m :: l) ↔
  (∃ n, n ∈ l ∧ shares_name_or_mid m n) ∨ has_duplicate l.
Proof.
  unfold has_duplicate. split.
  - intros (i & j & x & y & Hij & Hi & Hj & Hs).
    destruct j as [|j]; [lia|]. destruct i as [|i]; cbn in *.
    + injection Hi as <-. left. exists y. split; [|done].
      apply list_elem_of_lookup. eauto.
    + right. exists i, j, x, y. split; [lia|done].
  - intros [(n & (j & Hj)%list_elem_of_lookup & Hs)
           |(i & j & x & y & ? & ? & ? & ?)].
    + exists 0, (S j), m, n. split; [lia|done].
    + exists (S i), (S j), x, y. split; [lia|done].
Qed.

(** The text printed by the two loops: one message about the first
    model that collides with a later one, or nothing. *)
Lemma check_each_text self_name l :
  (has_duplicate l →
   ∃ m, m ∈ l ∧
     (check_each self_name l = duplicated_name_text self_name m ∨
      check_each self_name l = duplicated_mid_text self_name m)) ∧
  (¬ has_duplicate l → check_each self_name l = []).
Proof.
  induction l as [|m l [IH1 IH2]]; cbn.
  { split; [|done]. intros (i & j & x & y & _ & Hi & _). done. }
  rewrite has_duplicate_cons.
  destruct (check_against self_name m l) as [text|] eqn:Hc.
  - apply check_against_Some in Hc as [Hn Ht]. split.
    + intros _. exists m. split; [left|done].
    + intros Hno. destruct Hno. by left.
  - rewrite check_against_None in Hc. split.
    + intros [(n & Hn & Hs)|Hd]; [by destruct (Hc n Hn)|].
      destruct (IH1 Hd) as (m' & ? & ?). exists m'. split; [by right|done].
    + intros Hno. apply IH2. tauto.
Qed.

Context `{Builtins}.

(** C7.  When the literals of the record are well formed, constructing
    an element returns an object, duplicates or not: its vendor model
    list is the list built from the record, entry by entry and in the
    order of the record.  When two of these vendor models share a name
    or a [mid], the constructor has printed a message that names the
    element and the name or the [mid] of the first colliding model;
    otherwise it has printed nothing. *)
Theorem element_init_keeps_duplicates
    (name location : str) (group : option str)
    (sig_models : list SIGModel.record)
    (vendor_models : list VendorModel.record) (sources : list Source.t)
    (loc : Z) (sms : list SIGModel.t) (vms : list VendorModel.t) :
  int0 location = Ok loc →
  mapM SIGModel.of_record sig_models = Ok sms →
  mapM VendorModel.of_record vendor_models = Ok vms →
  ∃ text,
    __init__ name location group sig_models vendor_models sources =
      Ok (text, Element.mk name loc sms vms sources) ∧
    check_vendor_models name vendor_models = Ok (text, vms) ∧
    Forall2 (λ r m, VendorModel.of_record r = Ok m) vendor_models vms ∧
    (has_duplicate vms →
     text ≠ [] ∧
     ∃ m, m ∈ vms ∧ (text = duplicated_name_text name m ∨
                     text = duplicated_mid_text name m)) ∧
    (¬ has_duplicate vms → text = []).
Proof.
  intros Hloc Hsms Hvms. exists (check_each name vms).
  unfold __init__, check_vendor_models. rewrite Hloc, Hsms, Hvms. cbn.
  split; [done|]. split; [done|]. split; [by apply mapM_Ok|].
  destruct (check_each_text name vms) as [Hdup Hno]. split; [|done].
  intros (m & Hm & Ht)%Hdup. split; [|by eauto].
  destruct (duplicated_text_nonempty name m) as [? ?].
  destruct Ht as [-> | ->]; done.
Qed.
End construction.

Lemma element_init_keeps_duplicates_witness :
  ∃ text e,
    @Element.__init__ ascii_builtins (py "main") (py "0x0") None
      [SIGModel.mk_record (py "0x1000") (py "Generic OnOff Server")]
      [VendorModel.mk_record (py "0x10") (py "0x2") (py "a");
       VendorModel.mk_record (py "16") (py "0x3") (py "b")] [] =
      Ok (text, e) ∧
    length (Element.vendor_models e) = 2 ∧ text ≠ [].
Proof.
  destruct (@element_init_keeps_duplicates ascii_builtins
    (py "main") (py "0x0") None
    [SIGModel.mk_record (py "0x1000") (py "Generic OnOff Server")]
    [VendorModel.mk_record (py "0x10") (py "0x2") (py "a");
     VendorModel.mk_record (py "16") (py "0x3") (py "b")] []
    0%Z [SIGModel.mk 4096 (py "Generic OnOff Server")]
    [VendorModel.mk 16 2 (py "a"); VendorModel.mk 16 3 (py "b")])
    as (text & Hinit & _ & _ & Hdup & _); [reflexivity..|].
  exists text. eexists. split; [exact Hinit|]. split; [reflexivity|].
  apply Hdup.
  exists 0, 1, (VendorModel.mk 16 2 (py "a")), (VendorModel.mk 16 3 (py "b")).
  split; [lia|]. split; [reflexivity|]. split; [reflexivity|]. by right.
Defined.

Lemma is_mergeable_with_iff_witness :
  Element.is_mergeable_with main_1 main_2 = Ok true ∧
  ∃ r, Element.is_mergeable_with main_1 second = Ok r.
Proof.
  split.
  - apply (proj1 (is_mergeable_with_iff main_1 main_2)).
    split; [reflexivity|]. split; [|split].
    + intros x y ->%list_elem_of_singleton ->%list_elem_of_singleton. done.
    + intros x [->%list_elem_of_singleton | ->%list_elem_of_singleton]%elem_of_app;
        eexists; reflexivity.
    + intros x y ->%list_elem_of_singleton ->%list_elem_of_singleton. done.
  - apply (proj2 (is_mergeable_with_iff main_1 second));
      intros x ->%list_elem_of_singleton; cbn; lia.
Defined.

Lemma merge_with_concatenates_witness :
  Element.sig_models (Element.merge_with sample_heap 0 1 !!! 0) =
    [SIGModel.mk 4096 (py "Generic OnOff Server");
     SIGModel.mk 4098 (py "Generic Level Server")] ∧
  Element.merge_with sample_heap 0 1 !! 1 = Some main_2.
Proof.
  destruct (merge_with_concatenates sample_heap 0 1)
    as (Hsig & _ & _ & _ & _ & Hframe).
  split; [exact Hsig|]. rewrite Hframe by lia. reflexivity.
Defined.

(** ** The vendor model aggregator *)

Section aggregator.
Import DCD.
Implicit Types (acc l : list VendorModel.t) (me : VendorModel.t).

Lemma flag_loop_cons me d m acc :
  flag_loop me d (m :: acc) =
  flag_loop me (if bool_decide (VendorModel.name me = VendorModel.name m)
                   || bool_decide (VendorModel.mid me = VendorModel.mid m)
                then true else d) acc.
Proof. done. Qed.

(** Nothing resets the flag inside the innermost loop. *)
Lemma flag_loop_true me acc : flag_loop me true acc = true.
Proof.
  induction acc as [|m acc IH]; [done|].
  rewrite flag_loop_cons. by destruct (_ || _).
Qed.

Lemma flag_loop_false me acc :
  flag_loop me false acc = bool_decide (Exists (shares_name_or_mid me) acc).
Proof.
  induction acc as [|m acc IH].
  - symmetry. apply bool_decide_false. by intros ?%Exists_nil.
  - rewrite flag_loop_cons. destruct (_ || _) eqn:Hc.
    + rewrite flag_loop_true. symmetry. apply bool_decide_true. left.
      apply orb_prop in Hc as [?%bool_decide_eq_true|?%bool_decide_eq_true];
        [by left|by right].
    + rewrite IH. apply orb_false_elim in Hc as [H1 H2].
      apply bool_decide_eq_false in H1, H2.
      apply bool_decide_ext. rewrite Exists_cons.
      unfold shares_name_or_mid at 2. tauto.
Qed.

(** The flag is down whenever a candidate is taken up. *)
Lemma candidate_loop acc l :
  foldl candidate_step (false, acc) l =
  (false, foldl (keep_first shares_name_or_mid) acc l).
Proof.
  revert acc. induction l as [|me l IH]; intros acc; [done|].
  cbn [foldl candidate_step]. rewrite flag_loop_false.
  unfold keep_first at 2.
  destruct (decide (Exists (shares_name_or_mid me) acc)) as [He|He].
  - rewrite (bool_decide_true _ He). cbn. apply IH.
  - rewrite (bool_decide_false _ He). cbn. apply IH.
Qed.

Lemma collect_v_models_first_occurrences (h : heap) (d : DCD.t) :
  collect_v_models h d = first_occurrences shares_name_or_mid (candidates h d).
Proof.
  unfold collect_v_models, first_occurrences, candidates.
  change (snd (foldl (λ st e,
            foldl candidate_step st (Element.vendor_models (h !!! e)))
          (false, []) (elements d)) =
          foldl (keep_first shares_name_or_mid) []
            (elements d ≫= λ e, Element.vendor_models (h !!! e))).
  generalize (@nil VendorModel.t) as acc.
  induction (elements d) as [|e els IH]; intros acc; [done|].
  cbn [foldl]. rewrite candidate_loop, bind_cons, foldl_app. apply IH.
Qed.

Lemma keep_first_sublist acc src l :
  acc `sublist_of` src →
  foldl (keep_first shares_name_or_mid) acc l `sublist_of` src ++ l.
Proof.
  revert acc src. induction l as [|me l IH]; intros acc src Hsub.
  - by rewrite app_nil_r.
  - cbn [foldl]. rewrite (cons_middle me src l), app_assoc. apply IH.
    unfold keep_first. destruct (decide _).
    + by apply sublist_inserts_r.
    + by apply sublist_app.
Qed.

(** An accumulated entry is never removed. *)
Lemma keep_first_keeps acc l m :
  m ∈ acc → m ∈ foldl (keep_first shares_name_or_mid) acc l.
Proof.
  revert acc. induction l as [|x l IH]; intros acc Hm; [done|].
  cbn [foldl]. apply IH. unfold keep_first.
  destruct (decide _); [done|]. apply elem_of_app. by left.
Qed.

(** Every candidate is in the result or collides with an entry that is. *)
Lemma keep_first_covers acc l c :
  c ∈ acc ++ l →
  ∃ m, m ∈ foldl (keep_first shares_name_or_mid) acc l ∧
       (m = c ∨ shares_name_or_mid c m).
Proof.
  revert acc. induction l as [|me l IH]; intros acc Hc.
  - rewrite app_nil_r in Hc. exists c. cbn. auto.
  - cbn [foldl]. unfold keep_first at 2.
    destruct (decide (Exists (shares_name_or_mid me) acc)) as [He|He].
    + apply elem_of_app in Hc as [Hc|[->|Hc]%elem_of_cons].
      * apply IH, elem_of_app. by left.
      * apply Exists_exists in He as (m & Hm & Hs).
        exists m. split; [by apply keep_first_keeps|by right].
      * apply IH, elem_of_app. by right.
    + apply IH. rewrite <- app_assoc. exact Hc.
Qed.
(** C5, amended.  The aggregator meets the vendor models element by
    element and, within an element, in list order.  It appends a
    candidate exactly when no entry accumulated so far has the
    candidate's name or the candidate's [mid] (the raw model id, not the
    derived key [vmid]); a later colliding candidate is dropped, so the
    result is a subsequence of the candidates in which every candidate
    is present or collides with an entry that is.  The store, and so
    every element's own vendor model list, is left as it was. *)
Theorem collect_v_models_first_by_name_or_mid (h : heap) (d : DCD.t) :
  collect_v_models h d =
    first_occurrences shares_name_or_mid (candidates h d) ∧
  (∀ acc me,
     (∀ m, m ∈ acc → VendorModel.name me ≠ VendorModel.name m ∧
                     VendorModel.mid me ≠ VendorModel.mid m) →
     keep_first shares_name_or_mid acc me = acc ++ [me]) ∧
  (∀ acc me m,
     m ∈ acc →
     VendorModel.name me = VendorModel.name m ∨
     VendorModel.mid me = VendorModel.mid m →
     keep_first shares_name_or_mid acc me = acc) ∧
  collect_v_models h d `sublist_of` candidates h d ∧
  (∀ c, c ∈ candidates h d →
     ∃ m, m ∈ collect_v_models h d ∧ (m = c ∨ shares_name_or_mid c m)) ∧
  fst (dcdgen_collect h d) = h ∧
  elements (snd (dcdgen_collect h d)) = elements d ∧
  unique_vendor_models (snd (dcdgen_collect h d)) = collect_v_models h d.
Proof.
  split_and!; [apply collect_v_models_first_occurrences| | | | |done..].
  - intros acc me Hno. unfold keep_first.
    destruct (decide _) as [(m & Hm & Hs)%Exists_exists|]; [|done].
    destruct (Hno m Hm). by destruct Hs.
  - intros acc me m Hm Hs. unfold keep_first.
    destruct (decide _) as [|Hno]; [done|].
    destruct Hno. apply Exists_exists. by exists m.
  - rewrite collect_v_models_first_occurrences.
    apply (keep_first_sublist [] []). done.
  - intros c Hc. rewrite collect_v_models_first_occurrences.
    by apply (keep_first_covers []).
Qed.
End aggregator.

Lemma collect_v_models_first_by_name_or_mid_witness :
  DCD.collect_v_models sample_heap (sample_dcd [0; 1]) =
    first_occurrences shares_name_or_mid [vendor_a; vendor_b] ∧
  keep_first shares_name_or_mid [vendor_a] vendor_b = [vendor_a] ∧
  keep_first shares_name_or_mid [vendor_a] vendor_c = [vendor_a; vendor_c].
Proof.
  destruct (collect_v_models_first_by_name_or_mid sample_heap
              (sample_dcd [0; 1])) as (Heq & Hnew & Hold & _).
  split; [exact Heq|]. split.
  - apply (Hold [vendor_a] vendor_b vendor_a); [left|by right].
  - apply (Hnew [vendor_a] vendor_c).
    intros m ->%list_elem_of_singleton. done.
Defined.

(** C5 as stated fails.  [vendor_b] shares neither the name nor the
    [vmid] of the one accumulated entry [vendor_a], yet it is not
    appended, because it has the same [mid]; [vendor_c] has the [vmid]
    of [vendor_a] and is appended all the same. *)
Lemma collect_v_models_by_vmid_counterexample :
  candidates sample_heap (sample_dcd [0; 1]) = [vendor_a; vendor_b] ∧
  ¬ shares_name_or_vmid vendor_b vendor_a ∧
  DCD.collect_v_models sample_heap (sample_dcd [0; 1]) = [vendor_a] ∧
  first_occurrences shares_name_or_vmid
    (candidates sample_heap (sample_dcd [0; 1])) = [vendor_a; vendor_b] ∧
  candidates sample_heap (sample_dcd [0; 2]) = [vendor_a; vendor_c] ∧
  shares_name_or_vmid vendor_c vendor_a ∧
  DCD.collect_v_models sample_heap (sample_dcd [0; 2]) =
    [vendor_a; vendor_c] ∧
  first_occurrences shares_name_or_vmid
    (candidates sample_heap (sample_dcd [0; 2])) = [vendor_a].
Proof.
  split; [reflexivity|]. split; [by intros [?|?]|].
  split; [reflexivity|]. split; [reflexivity|].
  split; [reflexivity|]. split; [by right|].
  split; reflexivity.
Qed.

(** ** The validator *)

Section validator.
Import DCD.
Implicit Types (h : heap) (els : list ref) (s : Source.t).

Lemma Source_eq_spec s1 s2 : Source.__eq__ s1 s2 = true ↔ s1 = s2.
Proof.
  unfold Source.__eq__. rewrite bool_decide_eq_true.
  destruct s1, s2; cbn. split; [by intros [= -> ->]|by intros [= -> ->]].
Qed.

Lemma Source_contains_spec (l : list Source.t) s :
  Source.contains l s = true ↔ s ∈ l.
Proof.
  unfold Source.contains. induction l as [|x l IH]; cbn.
  - split; [done|by intros ?%elem_of_nil].
  - rewrite orb_true_iff, IH, Source_eq_spec, elem_of_cons.
    split; (intros [?|?]; [by left|by right]).
Qed.

Lemma elem_of_validation_error_list h els msg :
  msg ∈ validation_error_list h els ↔
  ∃ i j e e' s g, shared_group h els i j e e' s g ∧
    msg = validation_error s g (h !!! e) (h !!! e').
Proof.
  unfold validation_error_list, shared_group.
  rewrite list_elem_of_join. setoid_rewrite elem_of_lookup_imap.
  split.
  - intros (l & Hmsg & i & e & -> & Hi).
    apply list_elem_of_bind in Hmsg as (j & Hmsg & Hj).
    apply elem_of_seq in Hj.
    apply list_elem_of_bind in Hmsg as (s & Hmsg & Hs).
    destruct (Source.group s) as [g|] eqn:Hg; [|by apply elem_of_nil in Hmsg].
    destruct (Source.contains _ s) eqn:Hc; [|by apply elem_of_nil in Hmsg].
    apply list_elem_of_singleton in Hmsg. apply Source_contains_spec in Hc.
    destruct (lookup_lt_is_Some_2 els j) as [e' He']; [lia|].
    rewrite (list_lookup_total_correct _ _ _ He') in *.
    exists i, j, e, e', s, g. split; [|done].
    split; [lia|done].
  - intros (i & j & e & e' & s & g & (Hij & Hi & Hj & Hs & Hg & Hs') & ->).
    apply lookup_lt_Some in Hj as Hlt.
    eexists. split; [|exists i, e; split; [reflexivity|done]].
    apply list_elem_of_bind. exists j. split; [|apply elem_of_seq; lia].
    apply list_elem_of_bind. exists s. split; [|done].
    rewrite (list_lookup_total_correct _ _ _ Hj).
    rewrite Hg. apply Source_contains_spec in Hs'. rewrite Hs'. by left.
Qed.

Lemma validation_error_list_nonempty h els :
  validation_error_list h els ≠ [] ↔ ambiguous_group h els.
Proof.
  unfold ambiguous_group. split.
  - destruct (validation_error_list h els) as [|msg l] eqn:Hl; [done|].
    intros _.
    assert (Hin : msg ∈ validation_error_list h els) by (rewrite Hl; left).
    apply elem_of_validation_error_list in Hin
      as (i & j & e & e' & s & g & Hsh & _).
    by exists i, j, e, e', s, g.
  - intros (i & j & e & e' & s & g & Hsh) Hnil.
    assert (Hin : validation_error s g (h !!! e) (h !!! e')
                    ∈ validation_error_list h els).
    { apply elem_of_validation_error_list. by exists i, j, e, e', s, g. }
    rewrite Hnil in Hin. by apply elem_of_nil in Hin.
Qed.

Lemma join_emits (sep : str) (l : list str) (msg : str) :
  msg ∈ l → ∃ before after, join sep l = before ++ msg ++ after.
Proof.
  induction l as [|x l IH]; [by intros ?%elem_of_nil|].
  intros [->|Hin]%elem_of_cons.
  - exists []. destruct l as [|y l]; cbn; [exists []; by rewrite app_nil_r|eauto].
  - destruct (IH Hin) as (before & after & Heq).
    destruct l as [|y l]; [by apply elem_of_nil in Hin|].
    exists (x ++ sep ++ before), after.
    change (join sep (x :: y :: l)) with (x ++ sep ++ join sep (y :: l)).
    rewrite Heq. by rewrite <- !app_assoc.
Qed.

(** What [validate] does as it is written.  It ends the process with
    status [-1] exactly when two elements at different positions of the
    list carry an equal source whose group is not [None]; the test of
    the code is [is None], so a group that is the empty string is
    checked too.  Every violation, over all pairs, has its message in
    the report, each message names the group, the file and the names of
    the two elements, and the whole report is printed before the exit.
    When there is no violation nothing is printed and [validate]
    returns. *)
Theorem validate_spec h (d : DCD.t) :
  (snd (validate h d) = Raise (SystemExit (-1)) ↔
     ambiguous_group h (elements d)) ∧
  (-1 ≠ 0)%Z ∧
  (¬ ambiguous_group h (elements d) → validate h d = ([], Ok ())) ∧
  (ambiguous_group h (elements d) →
     validate h d = (join nl (validation_error_list h (elements d)) ++ nl,
                     Raise (SystemExit (-1)))) ∧
  (∀ msg, msg ∈ validation_error_list h (elements d) ↔
     ∃ i j e e' s g, shared_group h (elements d) i j e e' s g ∧
       msg = py "BtMeshGenerator: Duplicated group (" ++ g ++
             py ") from same file (" ++ Source.filename s ++
             py ".dcd) on different elements (" ++
             Element.name (h !!! e) ++ py ", " ++
             Element.name (h !!! e') ++ py ").") ∧
  (∀ msg, msg ∈ validation_error_list h (elements d) →
     ∃ before after, fst (validate h d) = before ++ msg ++ after).
Proof.
  pose proof (validation_error_list_nonempty h (elements d)) as Hne.
  unfold validate. case_bool_decide as Hl; cbn [fst snd].
  - assert (Ha : ambiguous_group h (elements d)) by by apply Hne.
    repeat split; try done.
    + apply elem_of_validation_error_list.
    + apply elem_of_validation_error_list.
    + intros msg Hin. destruct (join_emits nl _ _ Hin) as (b & a & Heq).
      exists b, (a ++ nl). unfold print. rewrite Heq.
      by rewrite <- !app_assoc.
  - assert (Ha : ¬ ambiguous_group h (elements d)) by (rewrite <- Hne; by intros ?).
    repeat split; try done.
    + apply elem_of_validation_error_list.
    + apply elem_of_validation_error_list.
    + rewrite Hl. by intros msg ?%elem_of_nil.
Qed.
End validator.

Lemma validate_spec_witness :
  snd (DCD.validate sample_heap (sample_dcd [0; 2])) =
    Raise (SystemExit (-1)) ∧
  DCD.validate sample_heap (sample_dcd [0; 1]) = ([], Ok ()).
Proof.
  destruct (validate_spec sample_heap (sample_dcd [0; 2]))
    as (Hfail & _).
  destruct (validate_spec sample_heap (sample_dcd [0; 1]))
    as (Hiff & _ & Hpass & _).
  split.
  - apply Hfail.
    exists 0, 1, 0, 2, (Source.mk (py "lighting") (Some (py "ctl"))),
      (py "ctl").
    split; [lia|]. split; [reflexivity|]. split; [reflexivity|].
    split; [by left|]. split; [reflexivity|by left].
  - apply Hpass. intros Ha%Hiff. discriminate Ha.
Defined.

(** C4.  The code departs from the claim where a group is the empty
    string.  The elements [left] and [right] both carry the source of
    file [f] whose group is the empty string.  No source with a
    non-empty group is shared and neither element has a group macro
    ([group_macros] keeps a pair only when its group is truthy), so
    nothing is ambiguous; [validate], which skips a source only when
    its group [is None], reports the pair and exits with status [-1]. *)
Theorem validate_exits_on_empty_group `{Builtins} :
  Element.sources left = [Source.mk (py "f") (Some [])] ∧
  Element.sources right = [Source.mk (py "f") (Some [])] ∧
  ¬ ambiguous_nonempty_group sample_heap (DCD.elements (sample_dcd [3; 4])) ∧
  Element.group_macros left = Ok [] ∧
  Element.group_macros right = Ok [] ∧
  DCD.validate sample_heap (sample_dcd [3; 4]) =
    (print (py "BtMeshGenerator: Duplicated group () from same file (f.dcd) on different elements (left, right)."),
     Raise (SystemExit (-1))).
Proof.
  split; [reflexivity|]. split; [reflexivity|].
  split; [|split; [reflexivity|split; reflexivity]].
  intros (i & j & e & e' & s & g & (Hij & Hi & Hj & Hs & Hg & Hs') & Hne).
  cbn in Hi. destruct i as [|[|i]]; [|destruct j as [|[|j]];
    [lia|lia|done]|done].
  injection Hi as <-.
  apply list_elem_of_singleton in Hs as ->. cbn in Hg. by injection Hg as <-.
Qed.

(** ** The chunk fold *)

Ltac in_app := repeat intro; rewrite ?elem_of_app in *; tauto.

Section chunk_fold.
Import DCD.
Implicit Types (h : heap) (d : DCD.t) (e r target : ref) (chunk els : list ref).

Lemma merge_into_first_match h pre target post e :
  rejects h pre e →
  Element.is_mergeable_with (h !!! target) (h !!! e) = Ok true →
  merge_into_first h (pre ++ target :: post) e =
    Ok (Some (Element.merge_with h target e)).
Proof.
  intros Hpre Ht. induction pre as [|x pre IH]; cbn.
  - by rewrite Ht.
  - rewrite (Hpre x) by left. cbn. apply IH. intros y Hy. apply Hpre. by right.
Qed.

Lemma merge_into_first_no_match h els e :
  rejects h els e → merge_into_first h els e = Ok None.
Proof.
  intros Hno. induction els as [|x els IH]; [done|]. cbn.
  rewrite (Hno x) by left. cbn. apply IH. intros y Hy. apply Hno. by right.
Qed.

Lemma merge_into_first_inv h els e res :
  merge_into_first h els e = Ok res →
  (res = None ∧ rejects h els e) ∨
  (∃ pre target post,
     els = pre ++ target :: post ∧ rejects h pre e ∧
     Element.is_mergeable_with (h !!! target) (h !!! e) = Ok true ∧
     res = Some (Element.merge_with h target e)).
Proof.
  induction els as [|x els IH]; cbn.
  - intros [= <-]. left. split; [done|]. by intros x ?%elem_of_nil.
  - intros ([] & Hb & Hres)%bind_Ok.
    + injection Hres as <-. right. exists [], x, els.
      split; [done|]. split; [by intros y ?%elem_of_nil|done].
    + destruct (IH Hres) as [[-> Hrej]|(pre & t & post & -> & Hrej & Ht & ->)].
      * left. split; [done|]. by intros y [->|?]%elem_of_cons; [|apply Hrej].
      * right. exists (x :: pre), t, post. split; [done|]. split; [|done].
        by intros y [->|?]%elem_of_cons; [|apply Hrej].
Qed.

Lemma add_element_inv h d e h' d' :
  add_element h d e = Ok (h', d') →
  (h' = h ∧ d' = set_elements d (elements d ++ [e]) ∧
   rejects h (elements d) e) ∨
  (∃ pre target post,
     elements d = pre ++ target :: post ∧ rejects h pre e ∧
     Element.is_mergeable_with (h !!! target) (h !!! e) = Ok true ∧
     h' = Element.merge_with h target e ∧ d' = d).
Proof.
  unfold add_element. intros (res & Hres & Hr)%bind_Ok.
  apply merge_into_first_inv in Hres
    as [[-> Hrej]|(pre & t & post & Hels & Hrej & Ht & ->)].
  - injection Hr as <- <-. by left.
  - injection Hr as <- <-. right. by exists pre, t, post.
Qed.

(** *** Totality *)

Lemma keys_defined_merged (a b : Element.t) :
  keys_defined a → keys_defined b → keys_defined (merged a b).
Proof.
  intros Ha Hb x [?|?]%elem_of_app; auto.
Qed.

Lemma merge_into_first_total h els e :
  keys_defined_on h (e :: els) → ∃ res, merge_into_first h els e = Ok res.
Proof.
  intros Hok. induction els as [|x els IH]; cbn; [eauto|].
  destruct (is_mergeable_with_total (h !!! x) (h !!! e)) as [b ->].
  { apply Hok. right. left. }
  { apply Hok. left. }
  cbn. destruct b; [eauto|]. apply IH.
  intros r [->|Hr]%elem_of_cons; apply Hok; [left|right; by right].
Qed.

Lemma add_element_total h d e refs :
  e ∈ refs → elements d ⊆ refs → keys_defined_on h refs →
  ∃ h' d', add_element h d e = Ok (h', d') ∧
           elements d' ⊆ refs ∧ keys_defined_on h' refs.
Proof.
  intros He Hels Hok.
  destruct (merge_into_first_total h (elements d) e) as [res Hres].
  { intros r [->|Hr]%elem_of_cons; apply Hok; auto. }
  unfold add_element. rewrite Hres. cbn.
  apply merge_into_first_inv in Hres
    as [[-> Hrej]|(pre & t & post & Hd & Hrej & Ht & ->)].
  - eexists _, _. split; [done|]. split; [|done].
    cbn. intros r [?| ->%list_elem_of_singleton]%elem_of_app; auto.
  - eexists _, _. split; [done|]. split; [done|].
    rewrite merge_with_insert. intros r Hr.
    destruct (decide (r = t)) as [->|Hne].
    + rewrite lookup_total_insert_eq. apply keys_defined_merged; apply Hok; auto.
    + rewrite lookup_total_insert_ne by done. by apply Hok.
Qed.

Lemma add_chunk_total h d chunk refs :
  chunk ⊆ refs → elements d ⊆ refs → keys_defined_on h refs →
  ∃ h' d', add_chunk h d chunk = Ok (h', d') ∧
           elements d' ⊆ refs ∧ keys_defined_on h' refs.
Proof.
  revert h d. induction chunk as [|e chunk IH]; intros h d Hc Hels Hok.
  - exists h, d. done.
  - destruct (add_element_total h d e refs) as (h1 & d1 & H1 & Hels1 & Hok1);
      [apply Hc; left|done|done|].
    cbn. rewrite H1. cbn. apply IH; [|done|done].
    intros r Hr. apply Hc. by right.
Qed.

(** *** Counting models *)

Lemma total_models_eq h d : total_models h d = chunk_models h (elements d).
Proof. done. Qed.

Lemma chunk_models_app h c1 c2 :
  chunk_models h (c1 ++ c2) = chunk_models h c1 + chunk_models h c2.
Proof. apply sum_list_with_app. Qed.

Lemma chunk_models_ext h h' chunk :
  (∀ r, r ∈ chunk → h' !!! r = h !!! r) →
  chunk_models h' chunk = chunk_models h chunk.
Proof.
  intros Heq. unfold chunk_models.
  induction chunk as [|x chunk IH]; [done|]. cbn.
  rewrite IH by (intros r Hr; apply Heq; by right).
  unfold models_of. rewrite Heq by left. done.
Qed.

Lemma models_of_merged (a b : Element.t) :
  Element.num_s (merged a b) + Element.num_v (merged a b) =
  (Element.num_s a + Element.num_v a) + (Element.num_s b + Element.num_v b).
Proof.
  unfold Element.num_s, Element.num_v, merged. cbn.
  rewrite !length_app. lia.
Qed.

(** Changing one object of a list without repetition changes the sum by
    the change of that object. *)
Lemma chunk_models_insert h els target (v : Element.t) :
  NoDup els → target ∈ els →
  chunk_models (<[target := v]> h) els + models_of h target =
  chunk_models h els + (Element.num_s v + Element.num_v v).
Proof.
  intros Hnd Hin. induction Hnd as [|x els Hx Hnd IH]; [by apply elem_of_nil in Hin|].
  unfold chunk_models in *. cbn [sum_list_with].
  destruct (decide (x = target)) as [->|Hne].
  - assert (Hrest : sum_list_with (models_of (<[target := v]> h)) els =
                    sum_list_with (models_of h) els).
    { apply (chunk_models_ext h). intros r Hr.
      rewrite lookup_total_insert_ne; [done|]. by intros ->. }
    rewrite Hrest. unfold models_of at 1. rewrite lookup_total_insert_eq. lia.
  - apply elem_of_cons in Hin as [->|Hin]; [done|].
    specialize (IH Hin). unfold models_of at 1.
    rewrite lookup_total_insert_ne by done.
    fold (models_of h x). lia.
Qed.

Lemma add_element_count h d e h' d' :
  NoDup (elements d) → e ∉ elements d →
  add_element h d e = Ok (h', d') →
  total_models h' d' = total_models h d + models_of h e ∧
  NoDup (elements d') ∧
  elements d' ⊆ elements d ++ [e] ∧
  (∀ r, r ∉ elements d → h' !!! r = h !!! r).
Proof.
  intros Hnd He [(-> & -> & _)|(pre & t & post & Hd & _ & _ & -> & ->)]%add_element_inv.
  - rewrite !total_models_eq. cbn [elements set_elements].
    rewrite chunk_models_app. unfold chunk_models at 2. cbn.
    split; [lia|]. split; [|done].
    apply NoDup_app. split; [done|]. split; [|apply NoDup_singleton].
    by intros x Hx ->%list_elem_of_singleton.
  - assert (Ht : t ∈ elements d).
    { rewrite Hd. apply elem_of_app. right. left. }
    rewrite merge_with_insert. split; [|split; [done|split]].
    + rewrite !total_models_eq.
      pose proof (chunk_models_insert h (elements d) t
                    (merged (h !!! t) (h !!! e)) Hnd Ht) as Hsum.
      rewrite models_of_merged in Hsum. unfold models_of in *. lia.
    + intros r Hr. apply elem_of_app. by left.
    + intros r Hr. rewrite lookup_total_insert_ne; [done|]. by intros ->.
Qed.

Lemma add_chunk_count h d chunk h' d' :
  NoDup (elements d ++ chunk) →
  add_chunk h d chunk = Ok (h', d') →
  total_models h' d' = total_models h d + chunk_models h chunk ∧
  NoDup (elements d') ∧
  elements d' ⊆ elements d ++ chunk ∧
  (∀ r, r ∉ elements d ++ chunk → h' !!! r = h !!! r).
Proof.
  revert h d. induction chunk as [|e chunk IH]; intros h d Hnd.
  - intros [= <- <-]. rewrite app_nil_r in *. unfold chunk_models. cbn.
    split; [lia|]. done.
  - cbn [add_chunk]. intros ([h1 d1] & H1 & Hrest)%bind_Ok.
    apply NoDup_app in Hnd as (Hnd1 & Hdisj & [He Hnd2]%NoDup_cons).
    destruct (add_element_count h d e h1 d1) as (Hc1 & Hnd1' & Hsub1 & Hfr1);
      [done| |done|].
    { intros Hin. apply (Hdisj e Hin). left. }
    destruct (IH h1 d1) as (Hc & Hnd' & Hsub & Hfr); [|done|].
    { apply NoDup_app. split; [done|]. split; [|done].
      intros x [Hx| ->%list_elem_of_singleton]%Hsub1%elem_of_app Hx'; [|done].
      apply (Hdisj x Hx). by right. }
    assert (Hchunk : chunk_models h1 chunk = chunk_models h chunk).
    { apply chunk_models_ext. intros r Hr. apply Hfr1.
      intros Hin. apply (Hdisj r Hin). by right. }
    split; [|split; [done|split]].
    + rewrite Hc, Hc1, Hchunk. unfold chunk_models. cbn. lia.
    + intros r [Hr|Hr]%Hsub%elem_of_app.
      * apply Hsub1 in Hr. apply elem_of_app in Hr as [?| ->%list_elem_of_singleton];
          apply elem_of_app; [by left|right; left].
      * apply elem_of_app. right. by right.
    + intros r Hr. rewrite Hfr.
      * apply Hfr1. intros ?. apply Hr, elem_of_app. by left.
      * intros [Hin|Hin]%elem_of_app; apply Hr.
        -- apply Hsub1 in Hin. apply elem_of_app in Hin as [?| ->%list_elem_of_singleton];
             apply elem_of_app; [by left|right; left].
        -- apply elem_of_app. right. by right.
Qed.

Lemma add_two_chunks_count h d c1 c2 :
  NoDup (elements d ++ c1 ++ c2) →
  keys_defined_on h (elements d ++ c1 ++ c2) →
  ∃ h' d',
    ('(h1, d1) ← add_chunk h d c1; add_chunk h1 d1 c2) = Ok (h', d') ∧
    total_models h' d' =
      total_models h d + chunk_models h c1 + chunk_models h c2.
Proof.
  intros Hnd Hok.
  destruct (add_chunk_total h d c1 (elements d ++ c1 ++ c2))
    as (h1 & d1 & H1 & Hsub1 & Hok1); [in_app|in_app|done|].
  destruct (add_chunk_total h1 d1 c2 (elements d ++ c1 ++ c2))
    as (h2 & d2 & H2 & _ & _); [in_app|done|done|].
  exists h2, d2. rewrite H1. cbn. split; [done|].
  rewrite app_assoc in Hnd.
  apply NoDup_app in Hnd as (Hnd1 & Hdisj & Hnd2).
  destruct (add_chunk_count h d c1 h1 d1 Hnd1 H1) as (Hc1 & Hnd1' & Hs1 & Hfr1).
  destruct (add_chunk_count h1 d1 c2 h2 d2) as (Hc2 & _); [|done|].
  { apply NoDup_app. split; [done|]. split; [|done].
    intros x Hx. apply Hdisj. by apply Hs1. }
  rewrite Hc2, Hc1. f_equal.
  apply chunk_models_ext. intros r Hr. apply Hfr1.
  intros Hin. by apply (Hdisj r Hin).
Qed.

(** C8.  Take an accumulated list and two chunks whose elements are
    distinct objects, distinct also from the accumulated ones (as
    freshly parsed elements are), with every vendor key defined and no
    collision across the two chunks.  Folding the chunks in either
    order returns a DCD, and both orders give the same total number of
    models: the total before plus the models of both chunks.  The
    proof does not use the absence of collisions. *)
Theorem total_models_chunk_order h d c1 c2 :
  NoDup (elements d ++ c1 ++ c2) →
  keys_defined_on h (elements d ++ c1 ++ c2) →
  no_cross_chunk_collisions h c1 c2 →
  ∃ h12 d12 h21 d21,
    ('(h1, d1) ← add_chunk h d c1; add_chunk h1 d1 c2) = Ok (h12, d12) ∧
    ('(h2, d2) ← add_chunk h d c2; add_chunk h2 d2 c1) = Ok (h21, d21) ∧
    total_models h12 d12 = total_models h21 d21 ∧
    total_models h12 d12 =
      total_models h d + chunk_models h c1 + chunk_models h c2.
Proof.
  intros Hnd Hok _.
  destruct (add_two_chunks_count h d c1 c2 Hnd Hok) as (h12 & d12 & H12 & Hc12).
  destruct (add_two_chunks_count h d c2 c1) as (h21 & d21 & H21 & Hc21).
  { by rewrite (Permutation_app_comm c2 c1). }
  { intros r Hr. apply Hok. revert Hr. in_app. }
  exists h12, d12, h21, d21. split; [done|]. split; [done|]. lia.
Qed.

(** C3.  [add_chunk] takes the incoming elements in chunk order, each
    against the state left by the ones before it.  An incoming element
    is merged into the first element of the accumulated list that is
    mergeable with it (every element before that one being not
    mergeable), and the list is unchanged; when no accumulated element
    is mergeable it is appended at the end and the store is unchanged.
    A round that returns has taken one of these two courses, and with
    every vendor key defined the whole fold returns. *)
Theorem add_chunk_first_match h d :
  add_chunk h d [] = Ok (h, d) ∧
  (∀ e chunk,
     add_chunk h d (e :: chunk) =
       '(h', d') ← add_element h d e; add_chunk h' d' chunk) ∧
  (∀ e pre target post,
     elements d = pre ++ target :: post →
     rejects h pre e →
     Element.is_mergeable_with (h !!! target) (h !!! e) = Ok true →
     add_element h d e = Ok (Element.merge_with h target e, d)) ∧
  (∀ e,
     rejects h (elements d) e →
     add_element h d e = Ok (h, set_elements d (elements d ++ [e]))) ∧
  (∀ e h' d',
     add_element h d e = Ok (h', d') →
     (h' = h ∧ d' = set_elements d (elements d ++ [e]) ∧
      rejects h (elements d) e) ∨
     (∃ pre target post,
        elements d = pre ++ target :: post ∧ rejects h pre e ∧
        Element.is_mergeable_with (h !!! target) (h !!! e) = Ok true ∧
        h' = Element.merge_with h target e ∧ d' = d)) ∧
  (∀ chunk,
     keys_defined_on h (elements d ++ chunk) →
     ∃ h' d', add_chunk h d chunk = Ok (h', d')).
Proof.
  split_and!; [done|done| | |apply add_element_inv|].
  - intros e pre target post Hd Hrej Ht. unfold add_element.
    by rewrite Hd, merge_into_first_match.
  - intros e Hrej. unfold add_element. by rewrite merge_into_first_no_match.
  - intros chunk Hok.
    destruct (add_chunk_total h d chunk (elements d ++ chunk))
      as (h' & d' & Heq & _); [in_app|in_app|done|]. eauto.
Qed.
End chunk_fold.


Lemma add_chunk_first_match_witness :
  DCD.add_element sample_heap (sample_dcd [2; 0]) 1 =
    Ok (Element.merge_with sample_heap 0 1, sample_dcd [2; 0]) ∧
  DCD.add_element sample_heap (sample_dcd [2]) 1 =
    Ok (sample_heap, sample_dcd [2; 1]) ∧
  ∃ h' d', DCD.add_chunk sample_heap (sample_dcd [2]) [0; 1] = Ok (h', d').
Proof.
  destruct (add_chunk_first_match sample_heap (sample_dcd [2; 0]))
    as (_ & _ & Hmerge & _).
  destruct (add_chunk_first_match sample_heap (sample_dcd [2]))
    as (_ & _ & _ & Happend & _ & Htotal).
  split; [|split].
  - apply (Hmerge 1 [2] 0 []); [reflexivity| |reflexivity].
    intros x ->%list_elem_of_singleton. reflexivity.
  - apply (Happend 1). intros x ->%list_elem_of_singleton. reflexivity.
  - apply Htotal. intros r Hr x Hx. cbn in Hr.
    repeat (apply elem_of_cons in Hr as [->|Hr];
            [apply list_elem_of_singleton in Hx as ->; cbn; lia|]).
    by apply elem_of_nil in Hr.
Defined.

(** Which element absorbs the other depends on the order, the total
    does not. *)
Lemma total_models_chunk_order_witness :
  ∃ h12 d12 h21 d21,
    ('(h1, d1) ← DCD.add_chunk sample_heap (sample_dcd []) [0];
     DCD.add_chunk h1 d1 [1; 2]) = Ok (h12, d12) ∧
    ('(h2, d2) ← DCD.add_chunk sample_heap (sample_dcd []) [1; 2];
     DCD.add_chunk h2 d2 [0]) = Ok (h21, d21) ∧
    DCD.elements d12 = [0; 2] ∧ DCD.elements d21 = [1; 2] ∧
    DCD.total_models h12 d12 = 6 ∧ DCD.total_models h21 d21 = 6.
Proof.
  destruct (total_models_chunk_order sample_heap (sample_dcd []) [0] [1; 2])
    as (h12 & d12 & h21 & d21 & H12 & H21 & Heq & Hsum).
  - compute_done.
  - intros r Hr x Hx. cbn in Hr.
    repeat (apply elem_of_cons in Hr as [->|Hr];
            [apply list_elem_of_singleton in Hx as ->; cbn; lia|]).
    by apply elem_of_nil in Hr.
  - intros a b ->%list_elem_of_singleton Hb Hname.
    apply elem_of_cons in Hb as [->|[->|Hb%elem_of_nil]%elem_of_cons];
      [|done..].
    split; intros x y ->%list_elem_of_singleton ->%list_elem_of_singleton;
      done.
  - exists h12, d12, h21, d21.
    split; [exact H12|]. split; [exact H21|].
    assert (E12 : ('(h1, d1) ← DCD.add_chunk sample_heap (sample_dcd []) [0];
                   DCD.add_chunk h1 d1 [1; 2]) =
                  Ok (<[0 := merged main_1 main_2]> sample_heap,
                      sample_dcd [0; 2])).
    { cbn. unfold DCD.add_element. cbn. by rewrite merge_with_insert. }
    assert (E21 : ('(h2, d2) ← DCD.add_chunk sample_heap (sample_dcd []) [1; 2];
                   DCD.add_chunk h2 d2 [0]) =
                  Ok (<[1 := merged main_2 main_1]> sample_heap,
                      sample_dcd [1; 2])).
    { cbn. unfold DCD.add_element. cbn. by rewrite merge_with_insert. }
    rewrite E12 in H12. rewrite E21 in H21.
    injection H12 as <- <-. injection H21 as <- <-.
    split; [reflexivity|]. split; [reflexivity|]. split; reflexivity.
Defined.

(** ** Parsed chunks *)

Section parsed_chunks.
Context `{Builtins}.

Lemma new_elements_fresh sources_of (h h' : heap) recs text refs :
  new_elements sources_of h recs = (text, Ok (h', refs)) →
  NoDup refs ∧
  (∀ r, r ∈ refs → (r ∉ dom h) ∧ r ∈ dom h') ∧
  (∀ r, r ∈ dom h → h' !! r = h !! r) ∧
  dom h ⊆ dom h' ∧
  (∀ r, r ∈ refs → ∃ e, e ∈ recs ∧
     Element.sources (h' !!! r) = sources_of e ∧
     Element.name (h' !!! r) = Element.r_name e).
Proof.
  revert h h' text refs. induction recs as [|e recs IH]; intros h h' text refs.
  - intros [= <- <- <-]. split; [constructor|].
    split; [by intros r ?%elem_of_nil|]. split; [done|]. split; [done|].
    by intros r ?%elem_of_nil.
  - cbn [new_elements].
    destruct (Element.__init__ _ _ _ _ _ _) as [[t obj]|x] eqn:Hinit; [|done].
    unfold new_element. set (r0 := fresh (dom h)).
    destruct (new_elements sources_of (<[r0:=obj]> h) recs)
      as [t' res] eqn:Hrest.
    destruct res as [[h1 refs1]|]; [|done]. cbn. intros [= <- <- <-].
    destruct (IH _ _ _ _ Hrest) as (Hnd & Hfresh & Hframe & Hdom & Hsrc).
    assert (Hr0 : r0 ∉ dom h) by apply is_fresh.
    assert (Hr0' : r0 ∈ dom (<[r0:=obj]> h)).
    { apply elem_of_dom. rewrite lookup_insert_eq. eauto. }
    assert (Hsub : dom h ⊆ dom (<[r0:=obj]> h)).
    { intros r [v Hr]%elem_of_dom. apply elem_of_dom.
      rewrite lookup_insert_ne by (by intros <-; apply Hr0, elem_of_dom).
      eauto. }
    split; [|split; [|split; [|split]]].
    + constructor; [|done]. intros Hin. by apply Hfresh in Hin as [? _].
    + intros r [->|Hr]%elem_of_cons; [by split; [|apply Hdom]|].
      apply Hfresh in Hr as [Hr ?]. split; [|done].
      intros Hin. by apply Hr, Hsub.
    + intros r Hr. rewrite Hframe by by apply Hsub.
      apply lookup_insert_ne. by intros <-.
    + intros r Hr. by apply Hdom, Hsub.
    + intros r [->|Hr]%elem_of_cons.
      * exists e. split; [left|].
        assert (Hobj : h1 !!! r0 = obj).
        { apply lookup_total_correct. rewrite Hframe by done.
          apply lookup_insert_eq. }
        rewrite Hobj. unfold Element.__init__ in Hinit.
        apply bind_Ok in Hinit as (l & _ & Hinit).
        apply bind_Ok in Hinit as (sm & _ & Hinit).
        apply bind_Ok in Hinit as ([t2 v] & _ & Hinit).
        by injection Hinit as _ <-.
      * destruct (Hsrc r Hr) as (e' & ? & ?). exists e'. split; [by right|done].
Qed.

(** The chunks that [dcd_chunk] parses are lists of distinct objects,
    distinct from every object made before. *)
Lemma parsed_chunks_distinct (h0 h1 h2 : heap) (d : DCD.t)
    (f1 f2 : str) (recs1 recs2 : list Element.record)
    (t1 t2 : str) (c1 c2 : list ref) :
  NoDup (DCD.elements d) →
  (∀ r, r ∈ DCD.elements d → r ∈ dom h0) →
  dcd_chunk h0 f1 recs1 = (t1, Ok (h1, c1)) →
  dcd_chunk h1 f2 recs2 = (t2, Ok (h2, c2)) →
  NoDup (DCD.elements d ++ c1 ++ c2).
Proof.
  intros Hnd Hdom H1 H2.
  destruct (new_elements_fresh _ _ _ _ _ _ H1) as (Hnd1 & Hf1 & _ & Hd1 & _).
  destruct (new_elements_fresh _ _ _ _ _ _ H2) as (Hnd2 & Hf2 & _ & _ & _).
  apply NoDup_app. split; [done|]. split.
  - intros r Hr [Hin|Hin]%elem_of_app.
    + by apply (Hf1 r Hin), Hdom.
    + by apply (Hf2 r Hin), Hd1, Hdom.
  - apply NoDup_app. split; [done|]. split; [|done].
    intros r Hr Hin. by apply (Hf2 r Hin), (Hf1 r Hr).
Qed.

(** Each element of a parsed chunk carries exactly one source, which
    names the file of the chunk. *)
Lemma parsed_chunk_sources (h h' : heap) (f : str)
    (recs : list Element.record) (text : str) (chunk : list ref) :
  dcd_chunk h f recs = (text, Ok (h', chunk)) →
  ∀ r, r ∈ chunk →
    ∃ g, Element.sources (h' !!! r) = [Source.mk f g].
Proof.
  intros Hc r Hr.
  destruct (new_elements_fresh _ _ _ _ _ _ Hc) as (_ & _ & _ & _ & Hsrc).
  destruct (Hsrc r Hr) as (e & _ & -> & _). eauto.
Qed.
End parsed_chunks.

(** * Further properties *)

(** ** Macro names *)

(** A boolean property checked on the 128 ASCII code points holds of
    every ASCII character. *)
Lemma ascii_forall (P : char → bool) :
  forallb (λ n, P (N.of_nat n)) (seq 0 128) = true →
  ∀ c, (c < 128)%N → P c = true.
Proof.
  intros Hall c Hc. rewrite forallb_forall in Hall.
  rewrite <- (N2Nat.id c). apply Hall, in_seq. lia.
Qed.

Lemma ascii_macro_char_spec (c : char) :
  (c < 128)%N →
  is_macro_char (ascii_macro_char c) = true ∧
  (ascii_macro_char c < 128)%N ∧
  ascii_macro_char (ascii_macro_char c) = ascii_macro_char c ∧
  ascii_isdigit (ascii_macro_char c) = ascii_isdigit c.
Proof.
  intros Hc.
  pose proof (ascii_forall (λ c,
    is_macro_char (ascii_macro_char c) &&
    (ascii_macro_char c <? 128)%N &&
    (ascii_macro_char (ascii_macro_char c) =? ascii_macro_char c)%N &&
    Bool.eqb (ascii_isdigit (ascii_macro_char c)) (ascii_isdigit c))
    ltac:(vm_compute; reflexivity) c Hc) as Hall.
  cbv beta in Hall.
  apply andb_prop in Hall as [[[H1 H2]%andb_prop H3]%andb_prop H4].
  split_and!; [done|by apply N.ltb_lt|by apply N.eqb_eq|by apply Bool.eqb_prop].
Qed.

Section macro_names.
Context `{Builtins}.

Lemma str_upper_keep_ascii (s : str) :
  is_ascii s →
  str_upper (keep_or_underscore <$> s) = ascii_macro_char <$> s.
Proof.
  induction 1 as [|c s Hc _ IH]; [done|].
  rewrite !fmap_cons. unfold str_upper in *. rewrite bind_cons, IH.
  unfold keep_or_underscore, ascii_macro_char.
  rewrite isalnum_ascii by done.
  rewrite upper_ascii; [done|].
  destruct (_ || _); [done|]. unfold underscore. lia.
Qed.

Lemma to_c_macro_ascii_closed (c : char) (rest : str) :
  is_ascii (c :: rest) →
  to_c_macro (c :: rest) =
    Ok ((ascii_macro_char <$> c :: rest) ++
        (if ascii_isdigit c then py "_" else [])).
Proof.
  intros Hs. rewrite to_c_macro_cons, str_upper_keep_ascii by done.
  inversion Hs; subst. by rewrite isdigit_ascii.
Qed.

(** X1.  On an ASCII name [to_c_macro] returns only capital letters,
    digits and underscores, as many characters as the name has, plus
    one when the name begins with a digit. *)
Theorem to_c_macro_ascii_charset (name macro : str) :
  is_ascii name → to_c_macro name = Ok macro →
  Forall (λ c, is_macro_char c = true) macro ∧
  length macro =
    length name + (if starts_with_digit name then 1 else 0).
Proof.
  intros Hs. destruct name as [|c rest]; [done|].
  rewrite to_c_macro_ascii_closed by done. intros Heq.
  assert (Hm : macro = (ascii_macro_char <$> c :: rest) ++
                       (if ascii_isdigit c then py "_" else []))
    by congruence.
  rewrite Hm. clear Heq Hm. split.
  - apply Forall_app. split.
    + apply Forall_fmap. eapply Forall_impl; [exact Hs|].
      intros x Hx. by apply ascii_macro_char_spec.
    + destruct (ascii_isdigit c); repeat constructor.
  - rewrite length_app, length_fmap. cbn [starts_with_digit].
    destruct (ascii_isdigit c); cbn; lia.
Qed.

(** X2.  A leading ASCII digit stays in front: the macro of such a name
    begins with that digit and ends with an underscore. *)
Theorem to_c_macro_keeps_leading_digit (c : char) (rest macro : str) :
  (c < 128)%N → is_ascii rest → ascii_isdigit c = true →
  to_c_macro (c :: rest) = Ok macro →
  head macro = Some c ∧ last macro = Some underscore ∧
  starts_with_digit macro = true.
Proof.
  intros Hc Hrest Hd.
  rewrite to_c_macro_ascii_closed by by constructor.
  rewrite Hd. intros Heq.
  assert (Hm : macro = (ascii_macro_char <$> c :: rest) ++ py "_")
    by congruence.
  assert (Hcc : ascii_macro_char c = c).
  { revert Hd. unfold ascii_macro_char, ascii_upper, ascii_isalnum, ascii_islower, ascii_isdigit.
    intros [H1 H2]%andb_prop. rewrite H1, H2. cbn.
    apply N.leb_le in H1, H2.
    destruct (N.leb_spec 97 c); [lia|]. done. }
  rewrite Hm. split; [by rewrite fmap_cons, Hcc|].
  split; [apply last_snoc|]. by rewrite fmap_cons, Hcc.
Qed.

(** X3.  Two ASCII names get the same macro exactly when they agree
    after folding case and replacing every other character by an
    underscore. *)
Theorem to_c_macro_collide_iff (s1 s2 : str) :
  s1 ≠ [] → is_ascii s1 → is_ascii s2 →
  (to_c_macro s1 = to_c_macro s2 ↔
   ascii_macro_char <$> s1 = ascii_macro_char <$> s2).
Proof.
  intros Hne H1 H2. destruct s1 as [|c1 r1]; [done|].
  destruct s2 as [|c2 r2].
  { rewrite to_c_macro_ascii_closed by done. split; done. }
  rewrite !to_c_macro_ascii_closed by done.
  inversion H1; inversion H2; subst.
  split.
  - intros Heq. injection Heq as Hh Ht.
    assert (Hd : ascii_isdigit c1 = ascii_isdigit c2).
    { destruct (ascii_macro_char_spec c1) as (_ & _ & _ & <-); [done|].
      destruct (ascii_macro_char_spec c2) as (_ & _ & _ & <-); [done|].
      by rewrite Hh. }
    rewrite Hd in Ht. apply app_inv_tail in Ht.
    rewrite !fmap_cons. by f_equal.
  - intros Heq. rewrite Heq. 
    assert (Hd : ascii_isdigit c1 = ascii_isdigit c2).
    { destruct (ascii_macro_char_spec c1) as (_ & _ & _ & <-); [done|].
      destruct (ascii_macro_char_spec c2) as (_ & _ & _ & <-); [done|].
      rewrite !fmap_cons in Heq. by injection Heq as -> _. }
    by rewrite Hd.
Qed.

(** X4.  Applying [to_c_macro] to the macro of an ASCII name returns
    the macro unchanged, except that a name beginning with a digit
    gets one more underscore at the end. *)
Theorem to_c_macro_again (name macro : str) :
  is_ascii name → to_c_macro name = Ok macro →
  to_c_macro macro =
    Ok (macro ++ if starts_with_digit name then py "_" else []).
Proof.
  intros Hs. destruct name as [|c rest]; [done|].
  rewrite to_c_macro_ascii_closed by done. intros Heq.
  unfold is_ascii in Hs.
  assert (Hm : macro = ascii_macro_char c ::
                 ((ascii_macro_char <$> rest) ++
                  (if ascii_isdigit c then py "_" else [])))
    by (by injection Heq as <-).
  apply Forall_cons in Hs as [Hc Hrest].
  destruct (ascii_macro_char_spec c Hc) as (_ & Hlt & Hidem & Hdig).
  assert (Hascii : is_ascii macro).
  { rewrite Hm. constructor; [done|]. apply Forall_app. split.
    - apply Forall_fmap. eapply Forall_impl; [exact Hrest|].
      intros x Hx. by apply ascii_macro_char_spec.
    - destruct (ascii_isdigit c); repeat constructor. }
  rewrite Hm in Hascii |- *. rewrite to_c_macro_ascii_closed by done.
  rewrite Hdig. cbn [starts_with_digit]. f_equal. f_equal.
  rewrite fmap_cons, Hidem. f_equal. rewrite fmap_app. f_equal.
  - rewrite <- list_fmap_compose. apply Forall_fmap_ext.
    eapply Forall_impl; [exact Hrest|]. intros x Hx. cbn.
    by apply ascii_macro_char_spec.
  - by destruct (ascii_isdigit c).
Qed.
End macro_names.

(** ** Element macros *)

Section fromkeys.
Context `{EqDecision K}.
Implicit Types (l d : list K).

Lemma fromkeys_loop d l :
  NoDup d →
  NoDup (foldl fromkeys_step d l) ∧
  ∀ x, x ∈ foldl fromkeys_step d l ↔ x ∈ d ∨ x ∈ l.
Proof.
  revert d. induction l as [|k l IH]; intros d Hd; cbn [foldl].
  - split; [done|]. intros x. rewrite elem_of_nil. tauto.
  - unfold fromkeys_step at 2 4. destruct (decide (k ∈ d)) as [Hk|Hk].
    + destruct (IH d Hd) as [Hnd Hin]. split; [done|].
      intros x. rewrite Hin, elem_of_cons. split; [tauto|].
      intros [?|[->|?]]; tauto.
    + destruct (IH (d ++ [k])) as [Hnd Hin].
      { apply NoDup_app. split; [done|]. split; [|apply NoDup_singleton].
        by intros x Hx ->%list_elem_of_singleton. }
      split; [done|]. intros x.
      rewrite Hin, elem_of_app, list_elem_of_singleton, elem_of_cons. tauto.
Qed.

Lemma fromkeys_spec l :
  NoDup (fromkeys l) ∧ ∀ x, x ∈ fromkeys l ↔ x ∈ l.
Proof.
  destruct (fromkeys_loop [] l) as [Hnd Hin]; [constructor|].
  split; [done|]. intros x. rewrite (Hin x), elem_of_nil. tauto.
Qed.

Lemma fromkeys_loop_known d l :
  (∀ x, x ∈ l → x ∈ d) → foldl fromkeys_step d l = d.
Proof.
  induction l as [|k l IH]; intros Hl; [done|]. cbn [foldl].
  unfold fromkeys_step at 2. rewrite decide_True by (apply Hl; left).
  apply IH. intros x Hx. apply Hl. by right.
Qed.

Lemma fromkeys_app_known l extra :
  (∀ x, x ∈ extra → x ∈ l) → fromkeys (l ++ extra) = fromkeys l.
Proof.
  intros Hl. unfold fromkeys.
  change (foldl fromkeys_step [] (l ++ extra) = foldl fromkeys_step [] l).
  rewrite foldl_app. apply fromkeys_loop_known.
  intros x Hx. apply fromkeys_spec. auto.
Qed.

Lemma fromkeys_length l : length (fromkeys l) ≤ length l.
Proof.
  unfold fromkeys. change (length (foldl fromkeys_step [] l) ≤ length l).
  assert (Hg : ∀ d, length (foldl fromkeys_step d l) ≤ length d + length l).
  { induction l as [|k l IH]; intros d; cbn [foldl length]; [lia|].
    specialize (IH (fromkeys_step d k)).
    assert (length (fromkeys_step d k) ≤ S (length d)); [|lia].
    unfold fromkeys_step. destruct (decide _); [lia|].
    rewrite length_app. cbn. lia. }
  apply (Hg []).
Qed.
End fromkeys.

Lemma bind_length_le1 {A B} (f : A → list B) (l : list A) :
  (∀ x, length (f x) ≤ 1) → length (l ≫= f) ≤ length l.
Proof.
  intros Hf. induction l as [|x l IH]; [done|].
  rewrite bind_cons, length_app. specialize (Hf x). cbn [length]. lia.
Qed.

Section macros.
Context `{Builtins}.
Import Element.

Lemma to_c_macro_defined (name : str) :
  name ≠ [] → ∃ macro, to_c_macro name = Ok macro.
Proof.
  destruct name as [|c rest]; [done|]. rewrite to_c_macro_cons. eauto.
Qed.

(** X5.  [macros] never raises, whatever the filenames and the name
    are (the joined text contains an underscore, so it is not empty);
    it returns one macro per source, in the order of the sources, the
    macro of the filename, an underscore and the element name. *)
Theorem macros_total (self : Element.t) :
  ∃ l, macros self = Ok l ∧
       Forall2 (λ s m, to_c_macro (Source.filename s ++ py "_" ++ name self)
                         = Ok m) (sources self) l.
Proof.
  unfold macros, filenames.
  destruct (proj1 (mapM_defined
    (λ filename, to_c_macro (join (py "_") [filename; name self]))
    (Source.filename <$> sources self))) as [l Hl].
  { intros f _. apply to_c_macro_defined. cbn. by destruct f. }
  exists l. split; [done|].
  apply mapM_Ok in Hl. by apply Forall2_fmap_l in Hl.
Qed.

Lemma named_group_pairs_spec (self : Element.t) :
  NoDup (named_group_pairs self) ∧
  ∀ f g, (f, g) ∈ named_group_pairs self ↔
         g ≠ [] ∧ Source.mk f (Some g) ∈ sources self.
Proof.
  unfold named_group_pairs.
  set (keys := (λ s, (Source.filename s, Source.group s)) <$> sources self).
  destruct (fromkeys_spec keys) as [Hnd Hin]. split.
  - clear Hin. induction Hnd as [|[f g] d Hx Hnd IH]; [constructor|].
    rewrite bind_cons. destruct g as [[|c g]|]; cbn [snd fst app];
      [exact IH| |exact IH].
    apply NoDup_cons. split; [|done].
    intros ([f' g'] & Hin' & Hd)%list_elem_of_bind.
    destruct g' as [[|c' g']|]; cbn in Hin'; try by apply elem_of_nil in Hin'.
    apply list_elem_of_singleton in Hin'. by injection Hin' as <- <- <-.
  - intros f g. rewrite list_elem_of_bind. split.
    + intros ([f' g'] & Hfg & Hk%Hin).
      destruct g' as [[|c' g']|]; cbn in Hfg; try by apply elem_of_nil in Hfg.
      apply list_elem_of_singleton in Hfg. injection Hfg as -> ->.
      split; [done|]. unfold keys in Hk.
      apply list_elem_of_fmap in Hk as ([f0 g0] & [= -> ->] & Hs). done.
    + intros [Hg Hs]. exists (f, Some g). destruct g as [|c g]; [done|].
      split; [by left|]. apply Hin. unfold keys.
      apply list_elem_of_fmap. by exists (Source.mk f (Some (c :: g))).
Qed.

(** X6.  [group_macros] never raises.  It returns one macro for each
    distinct (filename, group) pair among the sources whose group is a
    non-empty string, and none for a group that is [None] or empty; so
    it returns at most as many macros as there are sources. *)
Theorem group_macros_total (self : Element.t) :
  ∃ pairs l,
    group_macros self = Ok l ∧
    NoDup pairs ∧
    (∀ f g, (f, g) ∈ pairs ↔
            g ≠ [] ∧ Source.mk f (Some g) ∈ sources self) ∧
    Forall2 (λ pair m, to_c_macro (group_macro_name pair) = Ok m) pairs l ∧
    length l ≤ length (sources self).
Proof.
  exists (named_group_pairs self).
  destruct (named_group_pairs_spec self) as [Hnd Hin].
  assert (Hshape :
    (fromkeys ((λ s, (Source.filename s, Source.group s)) <$> sources self)
     ≫= λ src_pair,
       match src_pair.2 with
       | Some (c :: group) =>
           [join (py "_")
              [src_pair.1; py "group"; c :: group; py "elem_index"]]
       | _ => []
       end) = group_macro_name <$> named_group_pairs self).
  { unfold named_group_pairs.
    induction (fromkeys _) as [|[f g] d IH]; [done|].
    rewrite !bind_cons, fmap_app, IH. f_equal.
    destruct g as [[|c g]|]; cbn [fst snd]; [done| |done].
    unfold group_macro_name. cbn [fmap list_fmap fst snd join]. done. }
  unfold group_macros. cbv zeta. rewrite Hshape.
  destruct (proj1 (mapM_defined to_c_macro
    (group_macro_name <$> named_group_pairs self))) as [l Hl].
  { intros x ([f g] & -> & _)%list_elem_of_fmap.
    apply to_c_macro_defined. unfold group_macro_name. cbn.
    by destruct f. }
  exists l. split; [done|]. split; [done|]. split; [done|].
  apply mapM_Ok in Hl. apply Forall2_fmap_l in Hl. split; [done|].
  apply Forall2_length in Hl. rewrite <- Hl.
  etrans; [apply bind_length_le1|].
  { intros [f [[|c g]|]]; cbn; lia. }
  etrans; [apply fromkeys_length|]. by rewrite length_fmap.
Qed.

(** X7.  Sources that repeat sources the element already has do not
    change its group macros. *)
Theorem group_macros_ignores_repeats (self : Element.t)
    (extra : list Source.t) :
  (∀ s, s ∈ extra → s ∈ sources self) →
  group_macros (set_sources self (sources self ++ extra)) = group_macros self.
Proof.
  intros Hex. unfold group_macros. cbn [sources set_sources].
  rewrite fmap_app, fromkeys_app_known; [done|].
  intros x (s & -> & Hs)%list_elem_of_fmap.
  apply list_elem_of_fmap. exists s. auto.
Qed.
End macros.

(** ** More on mergeability and on the fold *)

Section mergeability_more.
Import Element.

(** X8.  Mergeability is symmetric in what it returns: whenever
    [is_mergeable_with a b] returns a boolean, [is_mergeable_with b a]
    returns the same boolean. *)
Theorem is_mergeable_with_sym (a b : Element.t) (r : bool) :
  is_mergeable_with a b = Ok r ↔ is_mergeable_with b a = Ok r.
Proof.
  assert (Hone : ∀ a b : Element.t,
            is_mergeable_with a b = Ok r → is_mergeable_with b a = Ok r).
  { clear. intros a b. unfold is_mergeable_with.
    rewrite (bool_decide_ext (name a ≠ name b) (name b ≠ name a))
      by (split; intros ? ?; congruence).
    case_bool_decide; [done|].
    rewrite (bool_decide_ext (_ ## _)
               ((list_to_set (SIGModel.mid <$> sig_models b) : gset Z) ##
                list_to_set (SIGModel.mid <$> sig_models a)))
      by (split; intros ?; by symmetry).
    case_bool_decide; cbn [negb]; [|done].
    destruct (mapM VendorModel.vmid (vendor_models a)) as [ka|xa]; cbn;
      [|done].
    destruct (mapM VendorModel.vmid (vendor_models b)) as [kb|xb]; cbn;
      [|done].
    rewrite (bool_decide_ext (_ ## _)
               ((list_to_set kb : gset Z) ## list_to_set ka))
      by (split; intros ?; by symmetry). done. }
  split; apply Hone.
Qed.

(** X9.  An element is mergeable with itself exactly when it has no
    SIG model and no vendor model. *)
Theorem is_mergeable_with_self (a : Element.t) :
  is_mergeable_with a a = Ok true ↔
  sig_models a = [] ∧ vendor_models a = [].
Proof.
  rewrite is_mergeable_with_true. split.
  - intros (_ & Hs & _ & Hv). split.
    + destruct (sig_models a) as [|x l]; [done|].
      exfalso. by apply (Hs x x); [left|left|].
    + destruct (vendor_models a) as [|x l]; [done|].
      exfalso. by apply (Hv x x); [left|left|].
  - intros [Hs Hv]. rewrite Hs, Hv. split; [done|].
    split; [by intros x y ?%elem_of_nil|].
    split; [by intros x ?%elem_of_nil|]. by intros x y ?%elem_of_nil.
Qed.

(** Elements of different names are rejected before any key is
    computed. *)
Lemma is_mergeable_with_other_name (a b : Element.t) :
  name a ≠ name b → is_mergeable_with a b = Ok false.
Proof. intros Hn. unfold is_mergeable_with. by rewrite bool_decide_true. Qed.
End mergeability_more.

Section fold_invariants.
Import DCD.
Implicit Types (h : heap) (d : DCD.t) (e r : ref) (chunk : list ref).

Lemma grows_refl h : grows h h.
Proof. intros r. done. Qed.

Lemma grows_trans h1 h2 h3 : grows h1 h2 → grows h2 h3 → grows h1 h3.
Proof.
  intros H12 H23 r.
  destruct (H12 r) as (? & ? & ? & ? & ?), (H23 r) as (? & ? & ? & ? & ?).
  split_and!; try congruence; by etrans.
Qed.

Lemma grows_merge_with h target e : grows h (Element.merge_with h target e).
Proof.
  intros r. rewrite merge_with_insert.
  destruct (decide (r = target)) as [->|Hne].
  - rewrite lookup_total_insert_eq. unfold merged. cbn.
    split_and!; try done; by apply prefix_app_r.
  - by rewrite lookup_total_insert_ne.
Qed.

Lemma add_element_grows h d e h' d' :
  add_element h d e = Ok (h', d') →
  grows h h' ∧
  (elements d' = elements d ∨ elements d' = elements d ++ [e]) ∧
  cid d' = cid d ∧ pid d' = pid d ∧ vid d' = vid d ∧
  unique_vendor_models d' = unique_vendor_models d.
Proof.
  intros [(-> & -> & _)|(pre & t & post & _ & _ & _ & -> & ->)]%add_element_inv.
  - split; [apply grows_refl|]. split; [by right|done].
  - split; [apply grows_merge_with|]. split; [by left|done].
Qed.

Lemma add_chunk_extends h d chunk h' d' :
  add_chunk h d chunk = Ok (h', d') →
  grows h h' ∧
  (∃ appended, elements d' = elements d ++ appended ∧
               appended `sublist_of` chunk) ∧
  cid d' = cid d ∧ pid d' = pid d ∧ vid d' = vid d ∧
  unique_vendor_models d' = unique_vendor_models d.
Proof.
  revert h d. induction chunk as [|e chunk IH]; intros h d.
  - intros [= <- <-]. split; [apply grows_refl|]. split; [|done].
    exists []. by rewrite app_nil_r.
  - cbn [add_chunk]. intros ([h1 d1] & H1 & Hrest)%bind_Ok.
    apply add_element_grows in H1 as (Hg1 & Hels1 & Hc & Hp & Hv & Hu).
    apply IH in Hrest as (Hg & (app & Hels & Hsub) & Hc' & Hp' & Hv' & Hu').
    split; [by eapply grows_trans|]. split; [|split_and!; congruence].
    destruct Hels1 as [Heq|Heq]; rewrite Heq in Hels.
    + exists app. split; [done|]. by apply sublist_cons.
    + exists (e :: app). rewrite <- app_assoc in Hels. split; [done|].
      by apply sublist_skip.
Qed.

(** X10.  A fold that returns has removed and reordered nothing.
    Every object of the store keeps its name and location and its
    lists are only extended at the end; the accumulated list is the
    former list followed by some elements of the chunk in chunk order;
    [cid], [pid], [vid] and [unique_vendor_models] are untouched. *)
Theorem add_chunk_grows h d chunk h' d' :
  add_chunk h d chunk = Ok (h', d') →
  grows h h' ∧
  (∃ appended, elements d' = elements d ++ appended ∧
               appended `sublist_of` chunk) ∧
  cid d' = cid d ∧ pid d' = pid d ∧ vid d' = vid d ∧
  unique_vendor_models d' = unique_vendor_models d.
Proof. apply add_chunk_extends. Qed.

Lemma prefix_sublist_of {A} (l1 l2 : list A) :
  l1 `prefix_of` l2 → l1 `sublist_of` l2.
Proof. intros [k ->]. by apply sublist_inserts_r. Qed.

Lemma carries_grows h h' r (e : Element.t) :
  grows h h' → carries h r e → carries h' r e.
Proof.
  intros Hg (Hn & Hs & Hv & Hsrc).
  destruct (Hg r) as (Hn' & _ & Ps & Pv & Psrc).
  split_and!; [congruence|..]; (etrans; [eassumption|]);
    by apply prefix_sublist_of.
Qed.

Lemma add_element_carries h d e h' d' :
  add_element h d e = Ok (h', d') →
  ∃ r, r ∈ elements d' ∧ carries h' r (h !!! e).
Proof.
  intros [(-> & -> & _)|(pre & t & post & Hd & _ & Ht & -> & ->)]%add_element_inv.
  - exists e. split; [apply elem_of_app; right; left|done].
  - exists t. split; [rewrite Hd; apply elem_of_app; right; left|].
    apply is_mergeable_with_true in Ht as (Hname & _).
    unfold carries. rewrite merge_with_insert, lookup_total_insert_eq.
    unfold merged. cbn. split_and!; [done|..]; by apply sublist_inserts_l.
Qed.

(** X11.  A fold that returns has lost nothing.  Every element that was
    accumulated is still accumulated, and for every element of the
    chunk some accumulated element of the same name carries, in order,
    all its SIG models, vendor models and sources. *)
Theorem add_chunk_keeps_everything h d chunk h' d' :
  add_chunk h d chunk = Ok (h', d') →
  (∀ r, r ∈ elements d → r ∈ elements d' ∧ carries h' r (h !!! r)) ∧
  (∀ e, e ∈ chunk → ∃ r, r ∈ elements d' ∧ carries h' r (h !!! e)).
Proof.
  intros Hadd. split.
  - intros r Hr.
    destruct (add_chunk_extends _ _ _ _ _ Hadd) as (Hg & (app & -> & _) & _).
    split; [apply elem_of_app; by left|].
    apply (carries_grows h); [done|]. done.
  - revert h d Hadd. induction chunk as [|e chunk IH]; intros h d Hadd x Hx;
      [by apply elem_of_nil in Hx|].
    cbn [add_chunk] in Hadd. apply bind_Ok in Hadd as ([h1 d1] & H1 & Hrest).
    destruct (add_chunk_extends _ _ _ _ _ Hrest) as (Hg & (app & Hels & _) & _).
    apply elem_of_cons in Hx as [->|Hx].
    + destruct (add_element_carries _ _ _ _ _ H1) as (r & Hr & Hc).
      exists r. split; [rewrite Hels; apply elem_of_app; by left|].
      by apply (carries_grows h1).
    + destruct (IH _ _ Hrest x Hx) as (r & Hr & Hn & Hs & Hv & Hsrc).
      exists r. split; [done|].
      destruct (add_element_grows _ _ _ _ _ H1) as (Hg1 & _).
      destruct (Hg1 x) as (Hn1 & _ & Ps & Pv & Psrc).
      split_and!; [congruence|..];
        (etrans; [apply prefix_sublist_of; eassumption|done]).
Qed.

Lemma unique_keys_merged (a b : Element.t) :
  unique_keys a → unique_keys b →
  Element.is_mergeable_with a b = Ok true → unique_keys (merged a b).
Proof.
  intros [Hsa Hva] [Hsb Hvb] (_ & Hs & _ & Hv)%is_mergeable_with_true.
  unfold unique_keys, merged. cbn. rewrite !fmap_app. split.
  - apply NoDup_app. split; [done|]. split; [|done].
    intros k (x & -> & Hx)%list_elem_of_fmap (y & Heq & Hy)%list_elem_of_fmap.
    by apply (Hs x y).
  - apply NoDup_app. split; [done|]. split; [|done].
    intros k (x & -> & Hx)%list_elem_of_fmap (y & Heq & Hy)%list_elem_of_fmap.
    by apply (Hv x y).
Qed.

Lemma add_element_unique_keys h d e h' d' (refs : list ref) :
  e ∈ refs → elements d ⊆ refs →
  (∀ r, r ∈ refs → unique_keys (h !!! r)) →
  add_element h d e = Ok (h', d') →
  elements d' ⊆ refs ∧ (∀ r, r ∈ refs → unique_keys (h' !!! r)).
Proof.
  intros He Hels Hu
    [(-> & -> & _)|(pre & t & post & Hd & _ & Ht & -> & ->)]%add_element_inv.
  - split; [|done]. cbn.
    intros r [?| ->%list_elem_of_singleton]%elem_of_app; auto.
  - split; [done|]. intros r Hr. rewrite merge_with_insert.
    destruct (decide (r = t)) as [->|Hne].
    + rewrite lookup_total_insert_eq. apply unique_keys_merged; auto.
    + rewrite lookup_total_insert_ne by done. auto.
Qed.

(** X12.  When no accumulated element and no element of the chunk has
    two SIG models of the same [mid] or two vendor models of the same
    [vmid], no accumulated element has after the fold. *)
Theorem add_chunk_unique_keys h d chunk h' d' :
  (∀ r, r ∈ elements d ++ chunk → unique_keys (h !!! r)) →
  add_chunk h d chunk = Ok (h', d') →
  ∀ r, r ∈ elements d' → unique_keys (h' !!! r).
Proof.
  intros Hu Hadd.
  assert (Hgen : ∀ refs h d, chunk ⊆ refs → elements d ⊆ refs →
            (∀ r, r ∈ refs → unique_keys (h !!! r)) →
            add_chunk h d chunk = Ok (h', d') →
            elements d' ⊆ refs ∧ (∀ r, r ∈ refs → unique_keys (h' !!! r))).
  { clear. induction chunk as [|e chunk IH]; intros refs h d Hc Hels Hu.
    - by intros [= <- <-].
    - cbn [add_chunk]. intros ([h1 d1] & H1 & Hrest)%bind_Ok.
      destruct (add_element_unique_keys h d e h1 d1 refs) as [Hels1 Hu1];
        [apply Hc; left|done|done|done|].
      apply (IH refs h1 d1); try done. intros r Hr. apply Hc. by right. }
  destruct (Hgen (elements d ++ chunk) h d) as [Hsub Hall]; try done.
  - intros r Hr. apply elem_of_app. by right.
  - intros r Hr. apply elem_of_app. by left.
  - intros r Hr. by apply Hall, Hsub.
Qed.

(** X13.  When the accumulated elements and the elements of the chunk
    all have different names, the fold appends the whole chunk in
    order and changes no object; it returns even when a vendor key is
    undefined, since names are compared first. *)
Theorem add_chunk_distinct_names h d chunk :
  NoDup (name_of h <$> (elements d ++ chunk)) →
  add_chunk h d chunk = Ok (h, set_elements d (elements d ++ chunk)).
Proof.
  revert d. induction chunk as [|e chunk IH]; intros d Hnd.
  - rewrite app_nil_r. by destruct d.
  - cbn [add_chunk].
    assert (Hrej : rejects h (elements d) e).
    { intros x Hx. apply is_mergeable_with_other_name. intros Heq.
      rewrite fmap_app, fmap_cons in Hnd.
      apply NoDup_app in Hnd as (_ & Hdisj & _).
      apply (Hdisj (name_of h x)); [by apply list_elem_of_fmap_2|].
      unfold name_of at 1. rewrite Heq. left. }
    unfold add_element. rewrite (merge_into_first_no_match _ _ _ Hrej). cbn.
    rewrite (IH (set_elements d (elements d ++ [e]))).
    + cbn. by rewrite <- app_assoc.
    + cbn. by rewrite <- app_assoc.
Qed.
End fold_invariants.

(** ** More on the validator *)

Section validator_more.
Import DCD.
Implicit Types (h : heap) (d : DCD.t) (els : list ref).

Lemma validate_passes h d :
  ¬ ambiguous_group h (elements d) → validate h d = ([], Ok ()).
Proof.
  intros Hno. unfold validate.
  rewrite bool_decide_false; [done|].
  by rewrite validation_error_list_nonempty.
Qed.

Lemma validate_fails h d :
  ambiguous_group h (elements d) →
  snd (validate h d) = Raise (SystemExit (-1)).
Proof.
  intros Ha. unfold validate.
  rewrite bool_decide_true; [done|].
  by rewrite validation_error_list_nonempty.
Qed.

Lemma validate_outcome h d :
  snd (validate h d) = Raise (SystemExit (-1)) ↔
  ambiguous_group h (elements d).
Proof.
  split; [|apply validate_fails]. intros Hf.
  apply validation_error_list_nonempty. intros Hnil.
  unfold validate in Hf. rewrite bool_decide_false in Hf by (by intros ?).
  done.
Qed.

(** X14.  A DCD with at most one element always passes validation. *)
Theorem validate_single h d :
  length (elements d) ≤ 1 → validate h d = ([], Ok ()).
Proof.
  intros Hlen. apply validate_passes.
  intros (i & j & e & e' & s & g & Hij & Hi & Hj & _).
  apply lookup_lt_Some in Hj. lia.
Qed.

Lemma validate_without_groups h d :
  (∀ r s, r ∈ elements d → s ∈ Element.sources (h !!! r) →
          Source.group s = None) →
  validate h d = ([], Ok ()).
Proof.
  intros Hnone. apply validate_passes.
  intros (i & j & e & e' & s & g & _ & Hi & _ & Hs & Hg & _).
  rewrite (Hnone e s) in Hg; [done| |done].
  apply list_elem_of_lookup. eauto.
Qed.

(** X15.  A DCD in which no source has a group always passes
    validation. *)
Theorem validate_no_groups h d :
  (∀ r s, r ∈ elements d → s ∈ Element.sources (h !!! r) →
          Source.group s = None) →
  validate h d = ([], Ok ()).
Proof. apply validate_without_groups. Qed.

(** The sharing of a source is symmetric, so the positions may be taken
    in either order. *)
Lemma ambiguous_group_alt h els :
  ambiguous_group h els ↔
  ∃ i j e e' s g,
    i ≠ j ∧ els !! i = Some e ∧ els !! j = Some e' ∧
    s ∈ Element.sources (h !!! e) ∧ Source.group s = Some g ∧
    s ∈ Element.sources (h !!! e').
Proof.
  split.
  - intros (i & j & e & e' & s & g & Hij & ?).
    exists i, j, e, e', s, g. split; [lia|done].
  - intros (i & j & e & e' & s & g & Hij & Hi & Hj & Hs & Hg & Hs').
    destruct (decide (i < j)).
    + by exists i, j, e, e', s, g.
    + exists j, i, e', e, s, g. split; [lia|done].
Qed.

(** X16.  Whether validation fails does not depend on the order of
    the elements. *)
Theorem validate_order_independent h d d' :
  elements d ≡ₚ elements d' →
  (snd (validate h d) = Raise (SystemExit (-1)) ↔
   snd (validate h d') = Raise (SystemExit (-1))).
Proof.
  assert (Hone : ∀ l l', l ≡ₚ l' →
            ambiguous_group h l → ambiguous_group h l').
  { intros l l' (_ & f & Hinj & Hf)%Permutation_inj.
    rewrite !ambiguous_group_alt.
    intros (i & j & e & e' & s & g & Hij & Hi & Hj & Hrest).
    exists (f i), (f j), e, e', s, g.
    split; [by intros ?%Hinj|]. by rewrite <- !Hf. }
  intros Hp. rewrite !validate_outcome. split; apply Hone; [done|by symmetry].
Qed.
End validator_more.

(** ** The aggregate list, group macros and the vendor key *)

Section links.
Import DCD.
Implicit Types (h : heap) (d : DCD.t).

(** X17.  After a validation that passed no (filename, group) pair
    makes a group macro on two elements of the DCD. *)
Theorem validate_separates_group_macros h d i j e e' (pair : str * str) :
  validate h d = ([], Ok ()) →
  i ≠ j → elements d !! i = Some e → elements d !! j = Some e' →
  pair ∈ named_group_pairs (h !!! e) →
  pair ∉ named_group_pairs (h !!! e').
Proof.
  intros Hv Hij Hi Hj Hp Hp'. destruct pair as [f g].
  apply named_group_pairs_spec in Hp as [_ Hs], Hp' as [_ Hs'].
  assert (Ha : ambiguous_group h (elements d)).
  { apply ambiguous_group_alt.
    by exists i, j, e, e', (Source.mk f (Some g)), g. }
  apply validate_fails in Ha. by rewrite Hv in Ha.
Qed.

Lemma keep_first_pairwise (acc l : list VendorModel.t) :
  pairwise_distinct acc →
  pairwise_distinct (foldl (keep_first shares_name_or_mid) acc l).
Proof.
  revert acc. induction l as [|me l IH]; intros acc Hacc; [done|].
  cbn [foldl]. apply IH. unfold keep_first.
  destruct (decide _) as [|Hno]; [done|].
  intros i j m n Hij Hi Hj.
  destruct (decide (j < length acc)) as [Hlt|Hge].
  - rewrite lookup_app_l in Hi, Hj by lia. by apply (Hacc i j).
  - rewrite lookup_app_r in Hj by lia.
    apply list_lookup_singleton_Some in Hj as [Hj0 <-].
    rewrite lookup_app_l in Hi by lia.
    intros Hs. apply Hno, Exists_exists. exists m. split; [|done].
    apply list_elem_of_lookup. eauto.
Qed.

(** X18.  No two entries of the aggregate list have the same name or
    the same [mid], and the list is never longer than the list of all
    vendor models. *)
Theorem collect_v_models_pairwise_distinct h d :
  pairwise_distinct (collect_v_models h d) ∧
  length (collect_v_models h d) ≤ length (candidates h d).
Proof.
  rewrite collect_v_models_first_occurrences. split.
  - apply keep_first_pairwise. intros i j m n _ Hi. done.
  - apply sublist_length, (keep_first_sublist [] []). done.
Qed.

Lemma keep_first_all_new (acc l : list VendorModel.t) :
  pairwise_distinct (acc ++ l) →
  foldl (keep_first shares_name_or_mid) acc l = acc ++ l.
Proof.
  revert acc. induction l as [|me l IH]; intros acc Hd.
  - by rewrite app_nil_r.
  - cbn [foldl]. unfold keep_first at 2.
    destruct (decide _) as [(m & (i & Hi)%list_elem_of_lookup & Hs)%Exists_exists|_].
    + exfalso. apply (Hd i (length acc) m me); [by apply lookup_lt_Some in Hi| | |done].
      * by apply lookup_app_l_Some.
      * by rewrite list_lookup_middle.
    + rewrite IH; rewrite <- app_assoc; done.
Qed.

(** X19.  When no two vendor models of the DCD share a name or a
    [mid], the aggregate list is the list of all vendor models, in
    order. *)
Theorem collect_v_models_all h d :
  pairwise_distinct (candidates h d) →
  collect_v_models h d = candidates h d.
Proof.
  intros Hd. rewrite collect_v_models_first_occurrences.
  by apply (keep_first_all_new []).
Qed.

(** Collecting from the collected list changes nothing. *)
Lemma first_occurrences_idempotent (l : list VendorModel.t) :
  first_occurrences shares_name_or_mid
    (first_occurrences shares_name_or_mid l) =
  first_occurrences shares_name_or_mid l.
Proof.
  apply (keep_first_all_new []). cbn.
  apply keep_first_pairwise. intros i j m n _ Hi. done.
Qed.
End links.

Section vendor_key_more.
Import VendorModel.

(** X20.  The key [vmid] does not tell vendor models apart: doubling
    the model id gives the key of the next company id, and every model
    with model id 0 has the key 0. *)
Theorem vmid_not_injective (m c : Z) (n n' : str) :
  (0 ≤ 16 + c)%Z →
  vmid (mk (2 * m) c n) = vmid (mk m (c + 1) n') ∧
  vmid (mk 0 c n) = Ok 0%Z.
Proof.
  intros Hc. rewrite !vmid_defined by (cbn; lia). cbn. split.
  - f_equal. replace (16 + (c + 1))%Z with (Z.succ (16 + c)) by lia.
    rewrite Z.pow_succ_r by lia. lia.
  - done.
Qed.
End vendor_key_more.

(** ** Construction of the DCD and of a chunk *)

Section construction_more.
Context `{Builtins}.

Lemma element_init_fields name location group sig_models vendor_models
    sources text (obj : Element.t) :
  Element.__init__ name location group sig_models vendor_models sources =
    Ok (text, obj) →
  Element.name obj = name ∧ Element.sources obj = sources.
Proof.
  unfold Element.__init__.
  intros (l & _ & (sm & _ & ([t v] & _ & Hobj)%bind_Ok)%bind_Ok)%bind_Ok.
  by injection Hobj as _ <-.
Qed.

Lemma new_elements_objects sources_of (h h' : heap) recs text refs :
  new_elements sources_of h recs = (text, Ok (h', refs)) →
  Forall2 (λ rec r,
     Element.name (h' !!! r) = Element.r_name rec ∧
     Element.sources (h' !!! r) = sources_of rec) recs refs.
Proof.
  revert h h' text refs. induction recs as [|e recs IH]; intros h h' text refs.
  - intros [= <- <- <-]. constructor.
  - cbn [new_elements].
    destruct (Element.__init__ _ _ _ _ _ _) as [[t obj]|x] eqn:Hinit; [|done].
    unfold new_element. set (r0 := fresh (dom h)).
    destruct (new_elements sources_of (<[r0:=obj]> h) recs)
      as [t' res] eqn:Hrest.
    destruct res as [[h1 refs1]|]; [|done]. cbn. intros [= <- <- <-].
    constructor; [|by eapply IH].
    destruct (new_elements_fresh _ _ _ _ _ _ Hrest) as (_ & _ & Hframe & _).
    assert (Hobj : h1 !!! r0 = obj).
    { apply lookup_total_correct. rewrite Hframe.
      - apply lookup_insert_eq.
      - apply elem_of_dom. rewrite lookup_insert_eq. eauto. }
    rewrite Hobj. by apply element_init_fields in Hinit.
Qed.

(** X21.  A chunk that [dcd_chunk] returns has one new object per
    record, in record order, all different and none in use before;
    each has the name of its record and exactly one source, made of
    the filename and the group of the record.  The objects that
    existed are unchanged. *)
Theorem dcd_chunk_elements (h h' : heap) (filename : str)
    (recs : list Element.record) (text : str) (chunk : list ref) :
  dcd_chunk h filename recs = (text, Ok (h', chunk)) →
  NoDup chunk ∧
  (∀ r, r ∈ chunk → r ∉ dom h) ∧
  (∀ r, r ∈ dom h → h' !! r = h !! r) ∧
  Forall2 (λ rec r,
     Element.name (h' !!! r) = Element.r_name rec ∧
     Element.sources (h' !!! r) =
       [Source.mk filename (Element.r_group rec)]) recs chunk.
Proof.
  intros Hc.
  destruct (new_elements_fresh _ _ _ _ _ _ Hc) as (Hnd & Hf & Hframe & _).
  split; [done|]. split; [intros r Hr; by apply Hf|]. split; [done|].
  by apply new_elements_objects in Hc.
Qed.

(** X22.  A DCD that the constructor returns has the parsed ids, an
    empty [unique_vendor_models], one new object per record in record
    order, no source on any element, and passes validation. *)
Theorem dcd_init_validates (h h' : heap) (cid pid vid : str)
    (recs : list Element.record) (text : str) (d : DCD.t) :
  DCD.__init__ h cid pid vid recs = (text, Ok (h', d)) →
  int0 cid = Ok (DCD.cid d) ∧ int0 pid = Ok (DCD.pid d) ∧
  int0 vid = Ok (DCD.vid d) ∧
  DCD.unique_vendor_models d = [] ∧
  NoDup (DCD.elements d) ∧
  Forall2 (λ rec r,
     Element.name (h' !!! r) = Element.r_name rec ∧
     Element.sources (h' !!! r) = []) recs (DCD.elements d) ∧
  DCD.validate h' d = ([], Ok ()).
Proof.
  unfold DCD.__init__.
  destruct (int0 cid) as [c|]; cbn; [|done].
  destruct (int0 pid) as [p|]; cbn; [|done].
  destruct (int0 vid) as [v|]; cbn; [|done].
  destruct (new_elements _ h recs) as [t res] eqn:Hnew.
  destruct res as [[h1 refs]|]; cbn; [|done]. intros [= <- <- <-].
  destruct (new_elements_fresh _ _ _ _ _ _ Hnew) as (Hnd & _).
  apply new_elements_objects in Hnew as Hobj. cbn.
  split_and!; try done.
  apply validate_without_groups. cbn. intros r s Hr Hs.
  apply list_elem_of_lookup in Hr as [i Hi].
  destruct (Forall2_lookup_r _ _ _ _ _ Hobj Hi) as (rec & _ & _ & Hsrc).
  rewrite Hsrc in Hs. by apply elem_of_nil in Hs.
Qed.
End construction_more.

(** ** Counting the models of a chunk, errors of the parser *)

Section fold_count.
Import DCD.
Implicit Types (h : heap) (d : DCD.t) (e r : ref) (chunk : list ref).

(** X24.  Folding a chunk of distinct objects, distinct from the
    accumulated ones, adds exactly the models of the chunk to
    [total_models], keeps the accumulated list free of repetitions and
    changes no object outside the accumulated list and the chunk. *)
Theorem add_chunk_adds_models h d chunk h' d' :
  NoDup (elements d ++ chunk) →
  add_chunk h d chunk = Ok (h', d') →
  total_models h' d' = total_models h d + chunk_models h chunk ∧
  NoDup (elements d') ∧
  (∀ r, r ∉ elements d ++ chunk → h' !!! r = h !!! r).
Proof.
  intros Hnd Hadd.
  destruct (add_chunk_count h d chunk h' d' Hnd Hadd) as (? & ? & _ & ?).
  done.
Qed.
End fold_count.


Section parse_errors.
Context `{Builtins}.

Lemma element_init_returns (rec : Element.record) (sources : list Source.t) :
  (∃ text obj,
     Element.__init__ (Element.r_name rec) (Element.r_location rec)
       (Element.r_group rec) (Element.r_sig_models rec)
       (Element.r_vendor_models rec) sources = Ok (text, obj)) ↔
  literals_parse rec.
Proof.
  unfold Element.__init__, Element.check_vendor_models, literals_parse.
  split.
  - intros (text & obj & (loc & Hloc & (sms & Hs & ([t vms] & (v & Hv & _)%bind_Ok & _)%bind_Ok)%bind_Ok)%bind_Ok).
    split; [eauto|]. split.
    + intros m Hm.
      destruct (proj2 (mapM_defined _ _) (ex_intro _ _ Hs) m Hm) as [y Hy].
      unfold SIGModel.of_record, SIGModel.__init__ in Hy.
      apply bind_Ok in Hy as (k & ? & _). eauto.
    + intros m Hm.
      destruct (proj2 (mapM_defined _ _) (ex_intro _ _ Hv) m Hm) as [y Hy].
      unfold VendorModel.of_record, VendorModel.__init__ in Hy.
      apply bind_Ok in Hy as (k & ? & (c & ? & _)%bind_Ok). eauto.
  - intros ([loc Hloc] & Hs & Hv).
    destruct (proj1 (mapM_defined SIGModel.of_record
                       (Element.r_sig_models rec))) as [sms Hsms].
    { intros m [v Hm]%Hs. unfold SIGModel.of_record, SIGModel.__init__.
      rewrite Hm. cbn. eauto. }
    destruct (proj1 (mapM_defined VendorModel.of_record
                       (Element.r_vendor_models rec))) as [vms Hvms].
    { intros m [[v Hm] [c Hc]]%Hv.
      unfold VendorModel.of_record, VendorModel.__init__.
      rewrite Hm. cbn. rewrite Hc. cbn. eauto. }
    rewrite Hloc, Hsms, Hvms. cbn. eauto.
Qed.

Lemma new_elements_returns sources_of (h : heap) recs :
  (∃ text h' refs, new_elements sources_of h recs = (text, Ok (h', refs))) ↔
  Forall literals_parse recs.
Proof.
  revert h. induction recs as [|rec recs IH]; intros h.
  - split; [constructor|]. intros _. by exists [], h, [].
  - cbn [new_elements]. rewrite Forall_cons, <- (element_init_returns rec (sources_of rec)).
    destruct (Element.__init__ _ _ _ _ _ _) as [[t obj]|x] eqn:Hinit.
    + unfold new_element. set (r0 := fresh (dom h)).
      rewrite <- (IH (<[r0:=obj]> h)).
      destruct (new_elements sources_of (<[r0:=obj]> h) recs) as [t' res].
      destruct res as [[h1 refs1]|y]; cbn.
      * split; [|by eauto]. intros _. split; eauto.
      * split; [by intros (? & ? & ? & ?)|].
        by intros (_ & ? & ? & ? & ?).
    + split; [by intros (? & ? & ? & ?)|]. by intros [(? & ? & ?) _].
Qed.

(** X25.  [dcd_chunk] returns a chunk exactly when every numeric
    literal of every record is well formed: the location, the [mid] of
    each SIG model, the [mid] and the [cid] of each vendor model. *)
Theorem dcd_chunk_returns_iff (h : heap) (filename : str)
    (recs : list Element.record) :
  (∃ text h' chunk, dcd_chunk h filename recs = (text, Ok (h', chunk))) ↔
  Forall literals_parse recs.
Proof. apply new_elements_returns. Qed.
End parse_errors.

(** ** Instances of the further properties on the sample data *)

Lemma to_c_macro_ascii_charset_witness :
  Forall (λ c, is_macro_char c = true) (py "AB_CD") ∧
  length (py "AB_CD") = length (py "ab-cd") + 0.
Proof.
  apply (@to_c_macro_ascii_charset ascii_builtins (py "ab-cd") (py "AB_CD")).
  - unfold is_ascii. cbn. repeat constructor.
  - reflexivity.
Defined.

Lemma to_c_macro_keeps_leading_digit_witness :
  head (py "3ABC_") = Some 51%N ∧ last (py "3ABC_") = Some underscore ∧
  starts_with_digit (py "3ABC_") = true.
Proof.
  apply (@to_c_macro_keeps_leading_digit ascii_builtins 51%N (py "abc")).
  - reflexivity.
  - unfold is_ascii. cbn. repeat constructor.
  - reflexivity.
  - reflexivity.
Defined.

Lemma to_c_macro_collide_iff_witness :
  @to_c_macro ascii_builtins (py "ab-cd") =
  @to_c_macro ascii_builtins (py "AB cd").
Proof.
  apply (@to_c_macro_collide_iff ascii_builtins (py "ab-cd") (py "AB cd")).
  - discriminate.
  - unfold is_ascii. cbn. repeat constructor.
  - unfold is_ascii. cbn. repeat constructor.
  - reflexivity.
Defined.

Lemma to_c_macro_again_witness :
  @to_c_macro ascii_builtins (py "3ABC_") = Ok (py "3ABC__").
Proof.
  apply (@to_c_macro_again ascii_builtins (py "3abc") (py "3ABC_")).
  - unfold is_ascii. cbn. repeat constructor.
  - reflexivity.
Defined.

Lemma group_macros_ignores_repeats_witness :
  @Element.group_macros ascii_builtins
    (Element.set_sources main_1
       (Element.sources main_1 ++ Element.sources main_1)) =
  @Element.group_macros ascii_builtins main_1.
Proof.
  apply (@group_macros_ignores_repeats ascii_builtins main_1).
  intros s Hs. exact Hs.
Defined.

Lemma add_chunk_grows_witness :
  grows sample_heap (Element.merge_with sample_heap 0 1) ∧
  ∃ appended, [2; 0] = [2] ++ appended ∧ appended `sublist_of` [0; 1].
Proof.
  destruct (add_chunk_grows sample_heap (sample_dcd [2]) [0; 1]
              (Element.merge_with sample_heap 0 1) (sample_dcd [2; 0]))
    as (Hg & Happ & _); [reflexivity|].
  split; [exact Hg|exact Happ].
Defined.

Lemma add_chunk_keeps_everything_witness :
  ∃ r, r ∈ [2; 0] ∧
       carries (Element.merge_with sample_heap 0 1) r main_2.
Proof.
  destruct (add_chunk_keeps_everything sample_heap (sample_dcd [2]) [0; 1]
              (Element.merge_with sample_heap 0 1) (sample_dcd [2; 0]))
    as (_ & Hchunk); [reflexivity|].
  apply (Hchunk 1). right. left.
Defined.

Lemma add_chunk_unique_keys_witness :
  unique_keys (Element.merge_with sample_heap 0 1 !!! 0).
Proof.
  apply (add_chunk_unique_keys sample_heap (sample_dcd [2]) [0; 1]
           (Element.merge_with sample_heap 0 1) (sample_dcd [2; 0])).
  - intros r Hr. cbn in Hr.
    repeat (apply elem_of_cons in Hr as [->|Hr];
            [split; apply NoDup_singleton|]).
    by apply elem_of_nil in Hr.
  - reflexivity.
  - right. left.
Defined.

Lemma add_chunk_distinct_names_witness :
  DCD.add_chunk sample_heap (sample_dcd [0]) [2; 3; 4] =
  Ok (sample_heap, sample_dcd [0; 2; 3; 4]).
Proof.
  apply (add_chunk_distinct_names sample_heap (sample_dcd [0]) [2; 3; 4]).
  compute_done.
Defined.

Lemma validate_single_witness :
  DCD.validate sample_heap (sample_dcd [0]) = ([], Ok ()).
Proof. apply validate_single. cbn. lia. Defined.

Lemma validate_no_groups_witness :
  DCD.validate sample_heap (sample_dcd [1; 1]) = ([], Ok ()).
Proof.
  apply validate_no_groups. intros r s Hr Hs. cbn in Hr.
  repeat (apply elem_of_cons in Hr as [->|Hr];
          [by apply list_elem_of_singleton in Hs as ->|]).
  by apply elem_of_nil in Hr.
Defined.

Lemma validate_order_independent_witness :
  snd (DCD.validate sample_heap (sample_dcd [2; 0])) =
  Raise (SystemExit (-1)).
Proof.
  apply (validate_order_independent sample_heap
           (sample_dcd [0; 2]) (sample_dcd [2; 0])).
  - apply Permutation_swap.
  - reflexivity.
Defined.

Lemma validate_separates_group_macros_witness :
  (py "lighting", py "ctl") ∉ named_group_pairs (sample_heap !!! 1).
Proof.
  apply (validate_separates_group_macros sample_heap (sample_dcd [0; 1])
           0 1 0 1 (py "lighting", py "ctl")).
  - reflexivity.
  - lia.
  - reflexivity.
  - reflexivity.
  - left.
Defined.

Lemma collect_v_models_all_witness :
  DCD.collect_v_models sample_heap (sample_dcd [0; 2]) =
  [vendor_a; vendor_c].
Proof.
  apply (collect_v_models_all sample_heap (sample_dcd [0; 2])).
  intros i j m n Hij Hi Hj. cbn in Hi, Hj.
  destruct i as [|[|i]]; destruct j as [|[|j]]; try lia; try done.
  injection Hi as <-. injection Hj as <-. by intros [?|?].
Defined.

Lemma vmid_not_injective_witness :
  VendorModel.vmid (VendorModel.mk 2 0 (py "c")) =
  VendorModel.vmid (VendorModel.mk 1 1 (py "a")).
Proof.
  destruct (vmid_not_injective 1 0 (py "c") (py "a")) as [Heq _]; [lia|].
  exact Heq.
Defined.

Lemma dcd_chunk_elements_witness :
  ∃ text h' chunk,
    @dcd_chunk ascii_builtins sample_heap (py "lighting") sample_records =
      (text, Ok (h', chunk)) ∧
    NoDup chunk ∧ h' !! 0 = Some main_1 ∧ length chunk = 2.
Proof.
  destruct (@dcd_chunk ascii_builtins sample_heap (py "lighting")
              sample_records) as [text [[h' chunk]|x]] eqn:E.
  - exists text, h', chunk. split; [reflexivity|].
    destruct (@dcd_chunk_elements ascii_builtins _ _ _ _ _ _ E)
      as (Hnd & _ & Hframe & Hobj).
    split; [exact Hnd|]. split.
    + rewrite Hframe; [reflexivity|]. apply elem_of_dom. eexists. reflexivity.
    + apply Forall2_length in Hobj. rewrite <- Hobj. reflexivity.
  - vm_compute in E. discriminate E.
Defined.

Lemma dcd_init_validates_witness :
  ∃ text h' d,
    @DCD.__init__ ascii_builtins ∅ (py "0x1") (py "0x2") (py "0x3")
      sample_records = (text, Ok (h', d)) ∧
    DCD.validate h' d = ([], Ok ()) ∧ DCD.cid d = 1%Z.
Proof.
  destruct (@DCD.__init__ ascii_builtins ∅ (py "0x1") (py "0x2") (py "0x3")
              sample_records) as [text [[h' d]|x]] eqn:E.
  - exists text, h', d. split; [reflexivity|].
    destruct (@dcd_init_validates ascii_builtins _ _ _ _ _ _ _ _ E)
      as (Hc & _ & _ & _ & _ & _ & Hv).
    split; [exact Hv|]. vm_compute in Hc. by injection Hc.
  - vm_compute in E. discriminate E.
Defined.

Lemma add_chunk_adds_models_witness :
  DCD.total_models (Element.merge_with sample_heap 0 1) (sample_dcd [2; 0]) =
  DCD.total_models sample_heap (sample_dcd [2]) + 4.
Proof.
  destruct (add_chunk_adds_models sample_heap (sample_dcd [2]) [0; 1]
              (Element.merge_with sample_heap 0 1) (sample_dcd [2; 0]))
    as (Hsum & _); [compute_done|reflexivity|].
  exact Hsum.
Defined.

Lemma dcd_chunk_returns_iff_witness :
  ∃ text h' chunk,
    @dcd_chunk ascii_builtins sample_heap (py "lighting") sample_records =
      (text, Ok (h', chunk)).
Proof.
  apply (@dcd_chunk_returns_iff ascii_builtins).
  unfold sample_records.
  constructor; [|constructor; [|constructor]].
  - split; [eexists; reflexivity|]. split.
    + intros m ->%list_elem_of_singleton. eexists; reflexivity.
    + by intros m ?%elem_of_nil.
  - split; [eexists; reflexivity|].
    split; by intros m ?%elem_of_nil.
Defined.
